(** * Chat-On: the GraphQL chat server resolvers and the client message hook

    The development embeds two pieces of the repository:

    - the server resolvers [Query.messages], [Mutation.addMessage] and
      [Subscription.messageAdded] (server/resolvers.js, as excerpted in
      README.md), threaded through a small state-and-exception monad over
      the message table and the in-process pub/sub hub;
    - the client hook [useMessages] (client/src/lib/graphql/hooks.js) with
      its subscription handler [onData], over the nullable values the
      Apollo cache hands to it.

    Every resolver call is one atomic step of the server: this is the
    serialised, single-writer order of appends that the design fixes. *)

From stdpp Require Import base option list sorting gmap strings.

Open Scope string_scope.
Open Scope list_scope.

(** ** Messages and errors *)

(** [type Message { id: ID!, user: String!, text: String! }] *)
Record Message := mkMessage { id : nat; user : string; text : string }.

#[global] Instance Message_eq_dec : EqDecision Message.
Proof. solve_decision. Defined.

Inductive Error :=
| AuthorizationError
| ValidationError
| StoreError.

#[global] Instance Error_eq_dec : EqDecision Error.
Proof. solve_decision. Defined.

(** [unauthorizedError()] builds the error thrown by the three guards. *)
Definition unauthorizedError : Error := AuthorizationError.

(** ** The message table *)

Record Store := mkStore { rows : list Message; next_id : nat }.

(** ** The pub/sub hub *)

(** One live subscriber: the principal that opened it, what its stream
    has yielded so far, and what is still queued for it. *)
Record Session := mkSession {
  owner : string;
  delivered : list Message;
  queue : list Message
}.

Record Broker := mkBroker { sessions : gmap nat Session; next_sid : nat }.

Record Server := mkServer { db : Store; pubSub : Broker }.

Definition emptyStore : Store := {| rows := []; next_id := 1 |}.
Definition emptyBroker : Broker := {| sessions := ∅; next_sid := 0 |}.
Definition initial : Server := {| db := emptyStore; pubSub := emptyBroker |}.

(** ** Resolver computations

    A resolver reads and writes the server state and may throw; a throw
    keeps the state reached so far. *)
Definition Resolver (A : Type) : Type := Server → (Error + A) * Server.

Definition ret {A} (a : A) : Resolver A := λ sv, (inr a, sv).
Definition throw {A} (e : Error) : Resolver A := λ sv, (inl e, sv).
Definition bind {A B} (c : Resolver A) (k : A → Resolver B) : Resolver B :=
  λ sv, match c sv with
        | (inl e, sv') => (inl e, sv')
        | (inr a, sv') => k a sv'
        end.
Definition withStore {A} (f : Store → (Error + A) * Store) : Resolver A :=
  λ sv, let '(r, d) := f (db sv) in (r, {| db := d; pubSub := pubSub sv |}).
Definition withBroker {A} (f : Broker → A * Broker) : Resolver A :=
  λ sv, let '(a, b) := f (pubSub sv) in (inr a, {| db := db sv; pubSub := b |}).

#[global] Instance Resolver_ret : MRet Resolver := @ret.
#[global] Instance Resolver_bind : MBind Resolver := λ A B k c, bind c k.

(** ** JavaScript truthiness of the context's [user]

    The request context carries [user] as either [undefined] ([None]) or
    the token's subject, a string. [!user] holds for [undefined] and for
    the empty string. *)
Definition truthy (user : option string) : bool :=
  match user with
  | Some u => negb (String.eqb u "")
  | None => false
  end.

(** [if (!user) throw unauthorizedError();] — past the guard [user] is a
    non-empty string. *)
Definition requireUser (user : option string) : Resolver string :=
  match user with
  | Some u => if String.eqb u "" then throw unauthorizedError else ret u
  | None => throw unauthorizedError
  end.

(** ** Store operations *)

(** Modelled from the spec: [createMessage] (server/db/messages.js) is the
    Message Store's [append(author, text) -> Message]: it assigns the next
    identifier of a strictly increasing sequence and adds the message at
    the end of the log. [ack] is the store's outcome for this call: a
    refused append yields [StoreError] and leaves the log as it was. *)
Definition createMessage (ack : bool) (user text : string)
    (d : Store) : (Error + Message) * Store :=
  if ack then
    let m := {| id := next_id d; user := user; text := text |} in
    (inr m, {| rows := rows d ++ [m]; next_id := S (next_id d) |})
  else (inl StoreError, d).

(** Modelled from the spec: [getMessages] (server/db/messages.js) is the
    Message Store's [listAll()]: every message of the log in creation
    order. [ok] is the store's outcome for this read. *)
Definition getMessages (ok : bool) (d : Store) : (Error + list Message) * Store :=
  if ok then (inr (rows d), d) else (inl StoreError, d).

(** ** Hub operations *)

Definition enqueue (m : Message) (s : Session) : Session :=
  {| owner := owner s; delivered := delivered s; queue := queue s ++ [m] |}.

(** Modelled from the spec: [pubSub.publish] (graphql-subscriptions) is
    the Event Broker's [publish(message)]: the message is added at the
    back of the queue of every session active at the moment of the
    call. *)
Definition publish (m : Message) (b : Broker) : unit * Broker :=
  (tt, {| sessions := enqueue m <$> sessions b; next_sid := next_sid b |}).

(** Modelled from the spec: [pubSub.asyncIterableIterator] is the
    Subscription Session's constructor past its authorisation check: a
    fresh session with an empty queue is registered with the hub, and its
    handle is returned. *)
Definition asyncIterableIterator (u : string) (b : Broker) : nat * Broker :=
  (next_sid b,
   {| sessions := <[next_sid b := {| owner := u; delivered := []; queue := [] |}]>
                    (sessions b);
      next_sid := S (next_sid b) |}).

(** What a pull on a session's stream gives. *)
Inductive Pull :=
| Yield (m : Message)
| Pending
| Closed.

(** Modelled from the spec: [nextMessage()] hands out the front of the
    queue; with an empty queue the caller stays suspended ([Pending]); on
    a session that is not registered it gets the closed signal. *)
Definition nextMessage (sid : nat) (b : Broker) : Pull * Broker :=
  match sessions b !! sid with
  | None => (Closed, b)
  | Some s =>
      match queue s with
      | [] => (Pending, b)
      | m :: q =>
          (Yield m,
           {| sessions := <[sid := {| owner := owner s;
                                      delivered := delivered s ++ [m];
                                      queue := q |}]> (sessions b);
              next_sid := next_sid b |})
      end
  end.

(** Modelled from the spec: [close()] unregisters the session; closing an
    unknown session changes nothing. *)
Definition close (sid : nat) (b : Broker) : unit * Broker :=
  (tt, {| sessions := delete sid (sessions b); next_sid := next_sid b |}).

(** ** The resolvers (server/resolvers.js) *)

(** [messages: (_r, _a, { user }) =>
      { if (!user) throw unauthorizedError(); return getMessages(); }] *)
Definition Query_messages (ok : bool) (user : option string)
    : Resolver (list Message) :=
  requireUser user ;;
  withStore (getMessages ok).

(** [addMessage: async (_r, { text }, { user }) =>
      { if (!user) throw unauthorizedError();
        const m = await createMessage(user, text);
        pubSub.publish("MESSAGE_ADDED", { messageAdded: m });
        return m; }]

    The schema types the argument [text: String!], so the resolver gets a
    string, possibly empty. *)
Definition Mutation_addMessage (ack : bool) (text : string)
    (user : option string) : Resolver Message :=
  u ← requireUser user;
  m ← withStore (createMessage ack u text);
  withBroker (publish m) ;;
  mret m.

(** [messageAdded: { subscribe: (_r, _a, { user }) =>
      { if (!user) throw unauthorizedError();
        return pubSub.asyncIterableIterator("MESSAGE_ADDED"); } }] *)
Definition Subscription_messageAdded (user : option string) : Resolver nat :=
  u ← requireUser user;
  withBroker (asyncIterableIterator u).

(** ** The server as a transition system

    A request is one call arriving at the server, together with the
    outcome the store has for it where it reaches the store. *)
Inductive Request :=
| Messages (ok : bool) (user : option string)
| AddMessage (ack : bool) (text : string) (user : option string)
| Subscribe (user : option string)
| Next (sid : nat)
| Close (sid : nat).

Inductive Response :=
| Listed (r : Error + list Message)
| Added (r : Error + Message)
| Subscribed (r : Error + nat)
| Pulled (p : Pull)
| Done.

Definition Event : Type := Request * Response.

Definition onBroker {A} (f : Broker → A * Broker) (sv : Server) : A * Server :=
  let '(a, b) := f (pubSub sv) in (a, {| db := db sv; pubSub := b |}).

Definition step (rq : Request) (sv : Server) : Response * Server :=
  match rq with
  | Messages ok user =>
      let '(r, sv') := Query_messages ok user sv in (Listed r, sv')
  | AddMessage ack text user =>
      let '(r, sv') := Mutation_addMessage ack text user sv in (Added r, sv')
  | Subscribe user =>
      let '(r, sv') := Subscription_messageAdded user sv in (Subscribed r, sv')
  | Next sid =>
      let '(p, sv') := onBroker (nextMessage sid) sv in (Pulled p, sv')
  | Close sid =>
      let '(_, sv') := onBroker (close sid) sv in (Done, sv')
  end.

(** Serving a sequence of requests: the events in order and the state
    reached. *)
Fixpoint run (tr : list Request) (sv : Server) : list Event * Server :=
  match tr with
  | [] => ([], sv)
  | rq :: tr' =>
      let '(r, sv1) := step rq sv in
      let '(h, sv2) := run tr' sv1 in
      ((rq, r) :: h, sv2)
  end.

Inductive reachable : Server → Prop :=
| reach_initial : reachable initial
| reach_step rq sv : reachable sv → reachable (step rq sv).2.

(** The messages returned by the [addMessage] calls that completed. *)
Definition createdBy (e : Event) : option Message :=
  match e.2 with
  | Added (inr m) => Some m
  | _ => None
  end.
Definition created (h : list Event) : list Message := omap createdBy h.

(** The messages a session's stream handed out. *)
Definition yieldedBy (sid : nat) (e : Event) : option Message :=
  match e with
  | (Next sid', Pulled (Yield m)) => if decide (sid' = sid) then Some m else None
  | _ => None
  end.
Definition yielded (sid : nat) (h : list Event) : list Message :=
  omap (yieldedBy sid) h.

(** Everything a session was handed or still holds, in order. *)
Definition stream (s : Session) : list Message := delivered s ++ queue s.

Definition id_lt (a b : Message) : Prop := id a < id b.

Definition newSession (u : string) : Session :=
  {| owner := u; delivered := []; queue := [] |}.

Definition advance (s : Session) (m : Message) (q : list Message) : Session :=
  {| owner := owner s; delivered := delivered s ++ [m]; queue := q |}.

(** The step function, case by case. *)
Inductive effect : Request → Server → Response → Server → Prop :=
| effect_messages ok user sv r :
    effect (Messages ok user) sv (Listed r) sv
| effect_add_failed ack text user sv e :
    effect (AddMessage ack text user) sv (Added (inl e)) sv
| effect_add text u sv :
    String.eqb u "" = false →
    let m := {| id := next_id (db sv); user := u; text := text |} in
    effect (AddMessage true text (Some u)) sv (Added (inr m))
      {| db := {| rows := rows (db sv) ++ [m]; next_id := S (next_id (db sv)) |};
         pubSub := {| sessions := enqueue m <$> sessions (pubSub sv);
                      next_sid := next_sid (pubSub sv) |} |}
| effect_subscribe_failed user sv :
    truthy user = false →
    effect (Subscribe user) sv (Subscribed (inl AuthorizationError)) sv
| effect_subscribe u sv :
    String.eqb u "" = false →
    effect (Subscribe (Some u)) sv (Subscribed (inr (next_sid (pubSub sv))))
      {| db := db sv;
         pubSub := {| sessions := <[next_sid (pubSub sv) := newSession u]>
                                    (sessions (pubSub sv));
                      next_sid := S (next_sid (pubSub sv)) |} |}
| effect_next_closed sid sv :
    sessions (pubSub sv) !! sid = None →
    effect (Next sid) sv (Pulled Closed) sv
| effect_next_pending sid sv s :
    sessions (pubSub sv) !! sid = Some s → queue s = [] →
    effect (Next sid) sv (Pulled Pending) sv
| effect_next_yield sid sv s m q :
    sessions (pubSub sv) !! sid = Some s → queue s = m :: q →
    effect (Next sid) sv (Pulled (Yield m))
      {| db := db sv;
         pubSub := {| sessions := <[sid := advance s m q]> (sessions (pubSub sv));
                      next_sid := next_sid (pubSub sv) |} |}
| effect_close sid sv :
    effect (Close sid) sv Done
      {| db := db sv;
         pubSub := {| sessions := delete sid (sessions (pubSub sv));
                      next_sid := next_sid (pubSub sv) |} |}.

(** ** The invariant of the reachable states *)

Record inv (sv : Server) : Prop := mkInv {
  inv_ids : Forall (λ m, id m < next_id (db sv)) (rows (db sv));
  inv_sorted : StronglySorted id_lt (rows (db sv));
  inv_sids : ∀ sid s,
    sessions (pubSub sv) !! sid = Some s → sid < next_sid (pubSub sv);
  inv_owner : ∀ sid s,
    sessions (pubSub sv) !! sid = Some s → String.eqb (owner s) "" = false;
  inv_suffix : ∀ sid s,
    sessions (pubSub sv) !! sid = Some s → stream s `suffix_of` rows (db sv)
}.

(** A session followed from its subscription on: [h] is the history since
    then. What its stream has yielded is the front part of what was
    created, and while it stays registered it holds the rest. *)
Definition tracks (sid : nat) (h : list Event) (sv : Server) : Prop :=
  yielded sid h `prefix_of` created h ∧
  sid < next_sid (pubSub sv) ∧
  ∀ s, sessions (pubSub sv) !! sid = Some s →
       delivered s = yielded sid h ∧ stream s = created h.

(** A state with one subscriber, "bob", holding one message. *)
Definition oneSubscriber : Server :=
  (run [Subscribe (Some "bob"); AddMessage true "hello" (Some "alice")] initial).2.

Definition hello : Message := {| id := 1; user := "alice"; text := "hello" |}.

(** ** The client hook (client/src/lib/graphql/hooks.js)

    Values that JavaScript may find [null] or [undefined] are options:
    [None] stands for both, which the operators used here do not tell
    apart. *)

Inductive Thrown := TypeError.

(** [o.f]: reading a property of [null] or [undefined] throws. *)
Definition getProp {A B} (o : option A) (f : A → B) : Thrown + B :=
  match o with
  | Some a => inr (f a)
  | None => inl TypeError
  end.

(** [o?.f] *)
Definition optChain {A B} (o : option A) (f : A → option B) : option B :=
  match o with
  | Some a => f a
  | None => None
  end.

(** [o ?? d] *)
Definition nullish {A} (o d : option A) : option A :=
  match o with
  | Some a => Some a
  | None => d
  end.

(** [[...o, x]]: spreading [null] or [undefined] into an array throws. *)
Definition spreadThen {A} (o : option (list A)) (x : A) : Thrown + list A :=
  match o with
  | Some l => inr (l ++ [x])
  | None => inl TypeError
  end.

(** The result of [query MessagesQuery { messages { id user text } }];
    the schema leaves the list nullable. *)
Record MessagesData := mkMessagesData {
  messages : option (list (option Message))
}.

(** The payload of [subscription MessageAdded { message: messageAdded {...} }];
    the schema leaves the message nullable. *)
Record MessageAddedData := mkMessageAddedData { message : option Message }.

(** What [onData] receives as [data]: the subscription result, whose own
    [data] field is absent when the result carries none. *)
Record SubscriptionResult := mkSubscriptionResult {
  data : option MessageAddedData
}.

(** The Apollo cache ([new InMemoryCache()]), as far as [messagesQuery]
    goes. The cache is normalised: a [Message] object is stored once, as
    the entity [Message:<id>] holding its fields, and the list of the
    query holds references to entities. [rootMessages] is the field
    [ROOT_QUERY.messages]: absent until a result of the query has been
    written, else [null] or a list whose entries are [null] or the
    identifier of an entity. *)
Record Cache := mkCache {
  entities : gmap nat (string * string);
  rootMessages : option (option (list (option nat)))
}.

Definition emptyCache : Cache := {| entities := ∅; rootMessages := None |}.

(** Reading one entry of the list: [null] as it is, a reference as the
    entity it names, with the fields the entity has now. *)
Definition readEntry (es : gmap nat (string * string)) (r : option nat)
    : option (option Message) :=
  match r with
  | None => Some None
  | Some i => (λ f, Some {| id := i; user := f.1; text := f.2 |}) <$> es !! i
  end.

(** [cache.readQuery({ query: messagesQuery })]: [null] while the field
    is absent; otherwise the list with every reference resolved (a
    reference to a missing entity is left out of the list). *)
Definition readQuery (c : Cache) : option MessagesData :=
  match rootMessages c with
  | None => None
  | Some None => Some {| messages := None |}
  | Some (Some refs) =>
      Some {| messages := Some (omap (readEntry (entities c)) refs) |}
  end.

(** Writing one entry: the fields of an object replace those of the
    entity with its identifier. *)
Definition writeEntry (es : gmap nat (string * string)) (x : option Message)
    : gmap nat (string * string) :=
  match x with
  | Some m => <[id m := (user m, text m)]> es
  | None => es
  end.

Definition refOf (x : option Message) : option nat := id <$> x.

(** [cache.writeQuery({ query: messagesQuery, data })]: the objects of
    the list are written to their entities in list order, so of two
    objects with one identifier the later one stays; the field takes the
    list of their references. *)
Definition writeQuery (d : MessagesData) (c : Cache) : Cache :=
  match messages d with
  | None => {| entities := entities c; rootMessages := Some None |}
  | Some l =>
      {| entities := foldl writeEntry (entities c) l;
         rootMessages := Some (Some (refOf <$> l)) |}
  end.

(** [cache.updateQuery(options, update)]: reads the query, hands the
    value to [update] and writes what it returns, unless that is [null]
    or [undefined]. *)
Definition updateQuery (update : option MessagesData → Thrown + option MessagesData)
    (cache : Cache) : Thrown + Cache :=
  match update (readQuery cache) with
  | inl e => inl e
  | inr None => inr cache
  | inr (Some d) => inr (writeQuery d cache)
  end.

(** [(oldData) => { return { messages: [...oldData.messages, newMessage] }; }] *)
Definition appendMessage (newMessage : option Message)
    (oldData : option MessagesData) : Thrown + option MessagesData :=
  match getProp oldData messages with
  | inl e => inl e
  | inr ms =>
      match spreadThen ms newMessage with
      | inl e => inl e
      | inr l => inr (Some {| messages := Some l |})
      end
  end.

(** [onData: ({ client, data }) => {
       const newMessage = data.data.message;
       client.cache.updateQuery({ query: messagesQuery }, (oldData) => ...); }] *)
Definition onData (cache : Cache) (result : SubscriptionResult) : Thrown + Cache :=
  match getProp (data result) message with
  | inl e => inl e
  | inr newMessage => updateQuery (appendMessage newMessage) cache
  end.

(** [const { data } = useQuery(messagesQuery); ...
     return { messages: data?.messages ?? [] };] *)
Definition useMessages (queryData : option MessagesData)
    : option (list (option Message)) :=
  nullish (optChain queryData messages) (Some []).

Definition eventOf (m : option Message) : SubscriptionResult :=
  {| data := Some {| message := m |} |}.

(** ** The client hook [useAddMessage] (client/src/lib/graphql/hooks.js) *)

(** The mutation aliases its field as [message] too, so its result has
    the shape of a subscription result: [{ data: { message } }]. *)
Definition MutationResult : Type := SubscriptionResult.

Inductive HookThrow :=
| MutateRejected
| DestructureTypeError.

(** [const addMessage = async (text) => {
       const { data: { message } } = await mutate({ variables: { text } });
       return message; };]

    [mutate] is the function [useMutation(addMessageMutation)] hands out;
    [None] is its rejection. Destructuring [message] out of a missing
    [data] throws. *)
Definition useAddMessage (mutate : string → option MutationResult)
    (text : string) : HookThrow + option Message :=
  match mutate text with
  | None => inl MutateRejected
  | Some result =>
      match data result with
      | None => inl DestructureTypeError
      | Some d => inr (message d)
      end
  end.

(** ** Events handled one after another

    The subscription calls [onData] once per event, on the cache the
    previous calls left. A call that throws has written nothing. *)
Definition handle (cache : Cache) (ev : SubscriptionResult) : Cache :=
  match onData cache ev with
  | inr c => c
  | inl _ => cache
  end.

Definition feed (cache : Cache) (events : list SubscriptionResult) : Cache :=
  foldl handle cache events.

(** The message an event carries, when it has data. *)
Definition carried (ev : SubscriptionResult) : option (option Message) :=
  message <$> data ev.

(** The cache after the query result [l] was written to the empty
    cache. *)
Definition cached (l : list Message) : Cache :=
  writeQuery {| messages := Some (Some <$> l) |} emptyCache.

(** What an entry of the list reads as once [m] was written: [m] itself
    if it shares the identifier of [m], and as before otherwise. *)
Definition refresh (m x : option Message) : option Message :=
  match m, x with
  | Some b, Some a => if decide (id a = id b) then Some b else Some a
  | _, _ => x
  end.

(** The list read after the messages [ms] were added one by one. *)
Definition absorb (l ms : list (option Message)) : list (option Message) :=
  foldl (λ acc m, (refresh m <$> acc) ++ [m]) l ms.

(** Objects with one identifier are one object. *)
Definition coherent (l : list (option Message)) : Prop :=
  ∀ a b, Some a ∈ l → Some b ∈ l → id a = id b → a = b.

(** The entity of every object of the list holds the object's fields. *)
Definition held (es : gmap nat (string * string)) (x : option Message) : Prop :=
  match x with
  | Some m => es !! id m = Some (user m, text m)
  | None => True
  end.

(** ** The login handler (server/auth.js) *)

(** A value of the parsed request body. *)
Inductive JsValue :=
| JsUndefined
| JsNull
| JsBool (b : bool)
| JsNumber (n : Z)
| JsString (s : string)
| JsObject.

(** [const { username, password } = req.body;] — a field the body lacks
    is [undefined]. *)
Record LoginBody := mkLoginBody { username : JsValue; password : JsValue }.

(** A row of the [user] table, as far as the handler reads it. *)
Record UserRow := mkUserRow { row_username : string; row_password : string }.

Inductive HttpResponse :=
| SendStatus (code : nat)
| Json (token : string).

Inductive LoginThrow :=
| BodyTypeError
| GetUserRejected
| SignThrew.

(** [user.password !== password], negated: a string is strictly equal
    only to the same string. *)
Definition strictEqString (s : string) (v : JsValue) : bool :=
  match v with
  | JsString t => String.eqb s t
  | _ => false
  end.

(** [export async function handleLogin(req, res) {
       const { username, password } = req.body;
       const user = await getUser(username);
       if (!user || user.password !== password) return res.sendStatus(401);
       const token = jwt.sign({ sub: username }, secret);
       res.json({ token }); }]

    [getUser] (server/db/users.js) and [jwt.sign] with the server's secret
    are taken as they come: [getUser] gives the row or [undefined], or
    rejects; [sign] gives the token for a subject, or throws. [body] is
    [req.body], [None] when the request has none. *)
Definition handleLogin
    (getUser : JsValue → LoginThrow + option UserRow)
    (sign : JsValue → LoginThrow + string)
    (body : option LoginBody) : LoginThrow + HttpResponse :=
  match body with
  | None => inl BodyTypeError
  | Some b =>
      match getUser (username b) with
      | inl e => inl e
      | inr None => inr (SendStatus 401)
      | inr (Some user) =>
          if negb (strictEqString (row_password user) (password b))
          then inr (SendStatus 401)
          else match sign (username b) with
               | inl e => inl e
               | inr token => inr (Json token)
               end
      end
  end.

(** The seeded table, and a signer that only names its subject. *)
Definition seedUsers (name : JsValue) : LoginThrow + option UserRow :=
  match name with
  | JsString "alice" => inr (Some {| row_username := "alice"; row_password := "alice123" |})
  | JsString "bob" => inr (Some {| row_username := "bob"; row_password := "bob123" |})
  | JsString "charlie" =>
      inr (Some {| row_username := "charlie"; row_password := "charlie123" |})
  | _ => inr None
  end.

Definition demoSign (subject : JsValue) : LoginThrow + string :=
  match subject with
  | JsString s => inr ("jwt:" +:+ s)
  | _ => inl SignThrew
  end.

(** ** Requests by kind *)

Definition isRead (rq : Request) : bool :=
  match rq with
  | Messages _ _ => true
  | _ => false
  end.

(** Of two registered sessions, the one that subscribed later holds a
    tail end of what the earlier one holds. *)
Definition laterIsTail (sv : Server) : Prop :=
  ∀ a b sa sb, a < b →
    sessions (pubSub sv) !! a = Some sa → sessions (pubSub sv) !! b = Some sb →
    stream sb `suffix_of` stream sa.

(** What an [addMessage] event says about the message it returned. *)
Definition authored (e : Event) : Prop :=
  match e with
  | (rq, Added (inr m)) =>
      rq = AddMessage true (text m) (Some (user m)) ∧ user m ≠ ""
  | _ => True
  end.

(** Two subscribers, "bob" from the start and "dave" after the first
    message. *)
Definition twoSubscribers : Server :=
  (run [Subscribe (Some "bob"); AddMessage true "hello" (Some "alice");
        Subscribe (Some "dave"); AddMessage true "again" (Some "bob"); Next 0]
       initial).2.

(** The events a session's yields become at the client. *)
Definition eventsOf (ms : list Message) : list SubscriptionResult :=
  (λ m, eventOf (Some m)) <$> ms.

Definition occurrences (m : Message) (l : list Message) : nat :=
  length (filter (λ x, x = m) l).

(** ** Proof automation *)

Ltac unfold_resolver :=
  unfold Query_messages, Mutation_addMessage, Subscription_messageAdded,
    mbind, Resolver_bind, bind, mret, Resolver_ret, ret, throw,
    withStore, withBroker, onBroker.

(** ** Worked runs *)

Example addMessage_alice :
  (Mutation_addMessage true "hello" (Some "alice") initial).1
  = inr {| id := 1; user := "alice"; text := "hello" |}.
Proof. reflexivity. Qed.

Example bob_receives_hello :
  (run [Subscribe (Some "bob"); AddMessage true "hello" (Some "alice"); Next 0;
        Messages true (Some "carol")] initial).1
  = [(Subscribe (Some "bob"), Subscribed (inr 0));
     (AddMessage true "hello" (Some "alice"),
      Added (inr {| id := 1; user := "alice"; text := "hello" |}));
     (Next 0, Pulled (Yield {| id := 1; user := "alice"; text := "hello" |}));
     (Messages true (Some "carol"),
      Listed (inr [{| id := 1; user := "alice"; text := "hello" |}]))].
Proof. vm_compute. reflexivity. Qed.

(** ** Equations of the resolvers *)

Lemma truthy_Some user :
  truthy user = true → ∃ u, user = Some u ∧ String.eqb u "" = false.
Proof.
  destruct user as [u|]; simpl; [|discriminate].
  intros H. exists u. split; [done|]. by destruct (String.eqb u "").
Qed.

Lemma requireUser_falsy user sv :
  truthy user = false → requireUser user sv = (inl AuthorizationError, sv).
Proof.
  destruct user as [u|]; simpl; [|done].
  unfold requireUser. by destruct (String.eqb u "").
Qed.

Lemma requireUser_truthy u sv :
  String.eqb u "" = false → requireUser (Some u) sv = (inr u, sv).
Proof. intros H. unfold requireUser. by rewrite H. Qed.

Lemma Query_messages_falsy ok user sv :
  truthy user = false →
  Query_messages ok user sv = (inl AuthorizationError, sv).
Proof. intros H. unfold_resolver. by rewrite requireUser_falsy. Qed.

Lemma Query_messages_truthy ok user sv :
  truthy user = true →
  Query_messages ok user sv
  = (if ok then inr (rows (db sv)) else inl StoreError, sv).
Proof.
  intros (u & -> & Hu)%truthy_Some. unfold_resolver.
  rewrite requireUser_truthy by done. unfold getMessages.
  destruct sv as [d b]; by destruct ok.
Qed.

Lemma Query_messages_state ok user sv : (Query_messages ok user sv).2 = sv.
Proof.
  destruct (truthy user) eqn:H.
  - by rewrite Query_messages_truthy.
  - by rewrite Query_messages_falsy.
Qed.

Lemma addMessage_falsy ack text user sv :
  truthy user = false →
  Mutation_addMessage ack text user sv = (inl AuthorizationError, sv).
Proof. intros H. unfold_resolver. by rewrite requireUser_falsy. Qed.

Lemma addMessage_refused text user sv :
  truthy user = true →
  Mutation_addMessage false text user sv = (inl StoreError, sv).
Proof.
  intros (u & -> & Hu)%truthy_Some. unfold_resolver.
  rewrite requireUser_truthy by done. by destruct sv.
Qed.

Lemma addMessage_acked text u sv :
  String.eqb u "" = false →
  let m := {| id := next_id (db sv); user := u; text := text |} in
  Mutation_addMessage true text (Some u) sv
  = (inr m,
     {| db := {| rows := rows (db sv) ++ [m]; next_id := S (next_id (db sv)) |};
        pubSub := {| sessions := enqueue m <$> sessions (pubSub sv);
                     next_sid := next_sid (pubSub sv) |} |}).
Proof.
  intros Hu m. unfold_resolver. by rewrite requireUser_truthy.
Qed.

Lemma subscribe_falsy user sv :
  truthy user = false →
  Subscription_messageAdded user sv = (inl AuthorizationError, sv).
Proof. intros H. unfold_resolver. by rewrite requireUser_falsy. Qed.

Lemma subscribe_truthy u sv :
  String.eqb u "" = false →
  Subscription_messageAdded (Some u) sv
  = (inr (next_sid (pubSub sv)),
     {| db := db sv;
        pubSub := {| sessions := <[next_sid (pubSub sv) := newSession u]>
                                   (sessions (pubSub sv));
                     next_sid := S (next_sid (pubSub sv)) |} |}).
Proof. intros Hu. unfold_resolver. by rewrite requireUser_truthy. Qed.

Lemma step_effect rq sv : effect rq sv (step rq sv).1 (step rq sv).2.
Proof.
  destruct rq as [ok u|ack txt u|u|sid|sid]; simpl.
  - destruct (Query_messages ok u sv) as [r sv'] eqn:E.
    pose proof (Query_messages_state ok u sv) as H. rewrite E in H.
    simpl in *; subst. constructor.
  - destruct (truthy u) eqn:Hu.
    + destruct ack.
      * apply truthy_Some in Hu as (v & -> & Hv).
        rewrite addMessage_acked by done. simpl. by constructor.
      * rewrite addMessage_refused by done. constructor.
    + rewrite addMessage_falsy by done. constructor.
  - destruct (truthy u) eqn:Hu.
    + apply truthy_Some in Hu as (v & -> & Hv).
      rewrite subscribe_truthy by done. simpl. by constructor.
    + rewrite subscribe_falsy by done. by constructor.
  - unfold onBroker, nextMessage.
    destruct (sessions (pubSub sv) !! sid) as [s|] eqn:Hs.
    + destruct (queue s) as [|m q] eqn:Hq; simpl.
      * destruct sv as [d b]; simpl in *. destruct b. by eapply effect_next_pending.
      * by eapply effect_next_yield.
    + simpl. destruct sv as [d b]; simpl in *. destruct b. by constructor.
  - unfold onBroker, close. simpl. constructor.
Qed.

(** ** Lists ordered by identifier *)

Lemma id_lt_snoc (l : list Message) (m : Message) (n : nat) :
  Forall (λ a, id a < n) l → StronglySorted id_lt l → id m = n →
  StronglySorted id_lt (l ++ [m]).
Proof.
  intros Hl Hs Hm. apply StronglySorted_app_2; [|done|repeat constructor].
  intros a b Ha ->%list_elem_of_singleton.
  rewrite Forall_forall in Hl. unfold id_lt. rewrite Hm. by apply Hl.
Qed.

Lemma id_lt_lookup (l : list Message) i j a b :
  StronglySorted id_lt l → l !! i = Some a → l !! j = Some b →
  id a < id b → i < j.
Proof.
  intros Hs Hi Hj Hab.
  destruct (decide (i < j)) as [|Hge]; [done|exfalso].
  destruct (decide (i = j)) as [->|Hne].
  - rewrite Hi in Hj. injection Hj as ->. lia.
  - assert (j < i) as Hji by lia.
    apply lookup_lt_Some in Hi as Hlen.
    rewrite <-(take_drop i l) in Hs, Hj, Hi.
    rewrite lookup_app_l in Hj by (rewrite length_take; lia).
    rewrite lookup_app_r in Hi by (rewrite length_take; lia).
    apply list_elem_of_lookup_2 in Hj, Hi.
    pose proof (StronglySorted_app_1_elem_of _ _ _ _ _ Hs Hj Hi) as Hlt.
    unfold id_lt in Hlt. lia.
Qed.

Lemma id_lt_NoDup (l : list Message) : StronglySorted id_lt l → NoDup l.
Proof.
  induction 1 as [|a l Hs IH Ha]; constructor; [|done].
  intros Hin. rewrite Forall_forall in Ha. specialize (Ha _ Hin).
  unfold id_lt in Ha. lia.
Qed.

Lemma id_lt_suffix (k l : list Message) :
  k `suffix_of` l → StronglySorted id_lt l → StronglySorted id_lt k.
Proof. intros [p ->] Hs. by apply StronglySorted_app_1_r in Hs. Qed.

Lemma id_lt_prefix (k l : list Message) :
  StronglySorted id_lt (k ++ l) → StronglySorted id_lt k.
Proof. apply StronglySorted_app_1_l. Qed.

(** ** Sessions *)

Lemma stream_enqueue m s : stream (enqueue m s) = stream s ++ [m].
Proof. unfold stream. simpl. by rewrite app_assoc. Qed.

Lemma stream_advance s m q : queue s = m :: q → stream (advance s m q) = stream s.
Proof. unfold stream. simpl. intros ->. by rewrite <-app_assoc. Qed.

(** ** The invariant holds in every reachable state *)

Lemma inv_initial : inv initial.
Proof.
  split; simpl; try (intros sid s Hs; by rewrite lookup_empty in Hs).
  - constructor.
  - constructor.
Qed.

Lemma inv_step rq sv : inv sv → inv (step rq sv).2.
Proof.
  intros [Hids Hsorted Hsids Howner Hsuffix].
  pose proof (step_effect rq sv) as E.
  destruct (step rq sv) as [r sv']; simpl in *.
  destruct E as [| |txt u sv Hu m| |u sv Hu| | |sid sv s0 m q Hs0 Hq|sid sv];
    try (by split).
  - split; simpl.
    + apply Forall_app. split.
      * eapply Forall_impl; [exact Hids|]. simpl. lia.
      * constructor; [simpl; lia|constructor].
    + by eapply id_lt_snoc.
    + intros sid s (s0 & <- & Hs0)%lookup_fmap_Some. eauto.
    + intros sid s (s0 & <- & Hs0)%lookup_fmap_Some. simpl. eauto.
    + intros sid s (s0 & <- & Hs0)%lookup_fmap_Some.
      rewrite stream_enqueue. apply suffix_app. eauto.
  - split; simpl; try done.
    + intros sid s [[<- <-]|[_ Hs]]%lookup_insert_Some; [lia|].
      apply Hsids in Hs. lia.
    + intros sid s [[<- <-]|[_ Hs]]%lookup_insert_Some; [done|]. eauto.
    + intros sid s [[<- <-]|[_ Hs]]%lookup_insert_Some; [|by eauto].
      apply suffix_nil.
  - split; simpl; try done.
    + intros sid' s [[<- <-]|[_ Hs]]%lookup_insert_Some; eauto.
    + intros sid' s [[<- <-]|[_ Hs]]%lookup_insert_Some; simpl; eauto.
    + intros sid' s [[<- <-]|[_ Hs]]%lookup_insert_Some; [|by eauto].
      rewrite stream_advance by done. eauto.
  - split; simpl; try done.
    + intros sid' s [_ Hs]%lookup_delete_Some. eauto.
    + intros sid' s [_ Hs]%lookup_delete_Some. eauto.
    + intros sid' s [_ Hs]%lookup_delete_Some. eauto.
Qed.

Lemma reachable_inv sv : reachable sv → inv sv.
Proof. induction 1; [apply inv_initial|by apply inv_step]. Qed.

Lemma run_cons rq tr sv :
  run (rq :: tr) sv
  = ((rq, (step rq sv).1) :: (run tr (step rq sv).2).1, (run tr (step rq sv).2).2).
Proof.
  simpl. destruct (step rq sv) as [r sv1]. simpl.
  by destruct (run tr sv1).
Qed.

Lemma run_inv tr sv : inv sv → inv (run tr sv).2.
Proof.
  revert sv. induction tr as [|rq tr IH]; intros sv Hsv; [done|].
  rewrite run_cons. simpl. by apply IH, inv_step.
Qed.

Lemma run_reachable tr sv : reachable sv → reachable (run tr sv).2.
Proof.
  revert sv. induction tr as [|rq tr IH]; intros sv Hsv; [done|].
  rewrite run_cons. simpl. by apply IH, reach_step.
Qed.

(** ** The log only grows, by what was created *)

Lemma created_snoc h e : created (h ++ [e]) = created h ++ from_option (λ m, [m]) [] (createdBy e).
Proof. unfold created. rewrite omap_app. simpl. by destruct (createdBy e). Qed.

Lemma yielded_snoc sid h e :
  yielded sid (h ++ [e])
  = yielded sid h ++ from_option (λ m, [m]) [] (yieldedBy sid e).
Proof. unfold yielded. rewrite omap_app. simpl. by destruct (yieldedBy sid e). Qed.

Lemma step_rows rq sv :
  rows (db (step rq sv).2)
  = rows (db sv) ++ from_option (λ m, [m]) [] (createdBy (rq, (step rq sv).1)).
Proof.
  pose proof (step_effect rq sv) as E.
  destruct (step rq sv) as [r sv']; simpl in *.
  destruct E; simpl; by rewrite ?app_nil_r.
Qed.

Lemma run_rows tr sv :
  rows (db (run tr sv).2) = rows (db sv) ++ created (run tr sv).1.
Proof.
  revert sv. induction tr as [|rq tr IH]; intros sv.
  - simpl. by rewrite app_nil_r.
  - rewrite run_cons. simpl. rewrite IH, step_rows.
    rewrite <-app_assoc. f_equal. unfold created. simpl.
    by destruct (createdBy (rq, (step rq sv).1)).
Qed.

Lemma created_sorted tr sv :
  inv sv → StronglySorted id_lt (created (run tr sv).1).
Proof.
  intros Hsv. apply (run_inv tr) in Hsv as [_ Hs _ _ _].
  rewrite run_rows in Hs. by apply StronglySorted_app_1_r in Hs.
Qed.

Lemma created_fresh tr sv m :
  inv sv → m ∈ rows (db sv) → m ∉ created (run tr sv).1.
Proof.
  intros Hsv Hm Hc. apply (run_inv tr) in Hsv as [_ Hs _ _ _].
  rewrite run_rows in Hs.
  pose proof (StronglySorted_app_1_elem_of _ _ _ _ _ Hs Hm Hc) as Hlt.
  unfold id_lt in Hlt. lia.
Qed.

(** ** Following one session *)

Lemma subscribe_inr user sv sid sv1 :
  Subscription_messageAdded user sv = (inr sid, sv1) →
  ∃ u, user = Some u ∧ String.eqb u "" = false ∧
       sid = next_sid (pubSub sv) ∧
       sv1 = {| db := db sv;
                pubSub := {| sessions := <[next_sid (pubSub sv) := newSession u]>
                                           (sessions (pubSub sv));
                             next_sid := S (next_sid (pubSub sv)) |} |}.
Proof.
  destruct (truthy user) eqn:Hu.
  - apply truthy_Some in Hu as (u & -> & Hu).
    rewrite subscribe_truthy by done. intros [= <- <-]. eauto.
  - by rewrite subscribe_falsy.
Qed.

Lemma tracks_subscribe user sv sid sv1 :
  Subscription_messageAdded user sv = (inr sid, sv1) → tracks sid [] sv1.
Proof.
  intros (u & Hsome & Hu & Hsid & Hsv1)%subscribe_inr. subst.
  split; [done|]. split; simpl; [lia|].
  intros s. rewrite lookup_insert_eq. by intros [= <-].
Qed.

Lemma tracks_step sid h sv rq :
  tracks sid h sv → tracks sid (h ++ [(rq, (step rq sv).1)]) (step rq sv).2.
Proof.
  intros (Hpre & Hsid & Hs).
  pose proof (step_effect rq sv) as E.
  destruct (step rq sv) as [r sv']; simpl in *.
  unfold tracks. rewrite created_snoc, yielded_snoc.
  destruct E as [| |txt u sv Hu m| |u sv Hu| | |sid0 sv s0 m q Hs0 Hq|sid0 sv];
    simpl; rewrite ?app_nil_r; try done.
  - split; [by apply prefix_app_r|]. split; [done|].
    intros s (s0 & <- & Hs0)%lookup_fmap_Some.
    destruct (Hs _ Hs0) as [Hd Hst]. rewrite stream_enqueue. simpl.
    by rewrite Hd, Hst.
  - split; [done|]. split; [lia|].
    intros s [[Heq _]|[_ Hs0]]%lookup_insert_Some; [lia|eauto].
  - destruct (decide (sid0 = sid)) as [->|Hne]; simpl; rewrite ?app_nil_r.
    + destruct (Hs _ Hs0) as [Hd Hst].
      assert (created h = (yielded sid h ++ [m]) ++ q) as Hc.
      { rewrite <-Hst, <-Hd. unfold stream. rewrite Hq. by rewrite <-app_assoc. }
      split; [by exists q|]. split; [done|].
      intros s. rewrite lookup_insert_eq. intros [= <-].
      rewrite stream_advance by done. simpl. by rewrite Hd.
    + split; [done|]. split; [done|].
      intros s. rewrite lookup_insert_ne by done. eauto.
  - split; [done|]. split; [done|].
    intros s [_ Hs0]%lookup_delete_Some. eauto.
Qed.

Lemma tracks_run sid tr h sv :
  tracks sid h sv → tracks sid (h ++ (run tr sv).1) (run tr sv).2.
Proof.
  revert h sv. induction tr as [|rq tr IH]; intros h sv Ht.
  - simpl. by rewrite app_nil_r.
  - rewrite run_cons. simpl. rewrite cons_middle, app_assoc.
    by apply IH, tracks_step.
Qed.

Lemma step_subscribe rq sv sid :
  is_Some (sessions (pubSub (step rq sv).2) !! sid) →
  is_Some (sessions (pubSub sv) !! sid) ∨
  ∃ u, rq = Subscribe u ∧ (step rq sv).1 = Subscribed (inr sid) ∧ truthy u = true.
Proof.
  pose proof (step_effect rq sv) as E.
  destruct (step rq sv) as [r sv']; simpl in *.
  destruct E as [| |txt u sv Hu m| |u sv Hu| | |sid0 sv s0 m q Hs0 Hq|sid0 sv];
    simpl; eauto.
  - rewrite lookup_fmap, fmap_is_Some. eauto.
  - rewrite lookup_insert_is_Some. intros [<-|[_ H]]; [right|by left].
    exists (Some u). simpl. by rewrite Hu.
  - rewrite lookup_insert_is_Some. intros [<-|[_ H]]; left; eauto.
  - rewrite lookup_delete_is_Some. intros [_ H]. by left.
Qed.

Lemma step_yield sid sv m :
  (step (Next sid) sv).1 = Pulled (Yield m) →
  is_Some (sessions (pubSub sv) !! sid).
Proof.
  simpl. unfold onBroker, nextMessage.
  destruct (sessions (pubSub sv) !! sid) as [s|]; [eauto|done].
Qed.

Lemma yield_subscribed tr sv i sid m :
  (run tr sv).1 !! i = Some (Next sid, Pulled (Yield m)) →
  is_Some (sessions (pubSub sv) !! sid) ∨
  ∃ j u, j < i ∧
         (run tr sv).1 !! j = Some (Subscribe u, Subscribed (inr sid)) ∧
         truthy u = true.
Proof.
  revert sv i. induction tr as [|rq tr IH]; intros sv i; [done|].
  rewrite run_cons. simpl. destruct i as [|i]; simpl.
  - intros [= -> Hr]. left. by eapply step_yield.
  - intros [Hs|(j & u & Hj & Hev & Hu)]%IH.
    + apply step_subscribe in Hs as [Hs|(u & -> & Hr & Hu)]; [by left|].
      right. exists 0, u. split; [lia|]. split; [|done]. by rewrite <-Hr.
    + right. exists (S j), u. simpl. split; [lia|done].
Qed.

(** ** The server-side claims *)

(** C1. [addMessage] called without an authenticated principal fails with
    AuthorizationError and leaves the server as it was: the log has the
    same rows and every session is unchanged, so nothing was appended
    and nothing was published. *)
Theorem C1_addMessage_unauthenticated ack txt usr sv :
  truthy usr = false →
  Mutation_addMessage ack txt usr sv = (inl AuthorizationError, sv) ∧
  rows (db (Mutation_addMessage ack txt usr sv).2) = rows (db sv) ∧
  (∀ sid, sessions (pubSub (Mutation_addMessage ack txt usr sv).2) !! sid
          = sessions (pubSub sv) !! sid) ∧
  created [(AddMessage ack txt usr, (step (AddMessage ack txt usr) sv).1)] = [].
Proof.
  intros H. simpl. by rewrite addMessage_falsy.
Qed.

Lemma C1_witness :
  truthy None = false ∧
  Mutation_addMessage true "hi" None oneSubscriber
  = (inl AuthorizationError, oneSubscriber).
Proof.
  split; [reflexivity|].
  apply (C1_addMessage_unauthenticated true "hi" None oneSubscriber).
  reflexivity.
Defined.

(** C2. After any sequence of requests served from the empty server,
    [listMessages] for an authenticated principal returns exactly the
    messages of the [addMessage] calls that completed, in the order of
    completion, and their identifiers increase strictly; for an
    unauthenticated principal it fails with AuthorizationError. (A read
    the store refuses surfaces as StoreError.) *)
Theorem C2_listMessages_order tr ok usr :
  Query_messages ok usr (run tr initial).2
  = (if truthy usr
     then (if ok then inr (created (run tr initial).1) else inl StoreError)
     else inl AuthorizationError,
     (run tr initial).2) ∧
  StronglySorted id_lt (created (run tr initial).1).
Proof.
  split.
  - destruct (truthy usr) eqn:Hu.
    + rewrite Query_messages_truthy by done. by rewrite run_rows.
    + by rewrite Query_messages_falsy.
  - apply created_sorted, inv_initial.
Qed.

(** C3, as the code has it. [addMessage] by an authenticated principal
    with the empty text is not refused: the resolver hands the text to
    the store as it is. When the store acknowledges, a message with the
    empty text is created, appended, published and returned; when it
    refuses, the call fails with StoreError. It never fails with
    ValidationError. *)
Theorem C3_addMessage_empty_text ack usr sv :
  truthy usr = true →
  ∃ u, usr = Some u ∧
    Mutation_addMessage ack "" usr sv
    = (if ack
       then (inr {| id := next_id (db sv); user := u; text := "" |},
             {| db := {| rows := rows (db sv)
                                 ++ [{| id := next_id (db sv); user := u; text := "" |}];
                         next_id := S (next_id (db sv)) |};
                pubSub := (publish {| id := next_id (db sv); user := u; text := "" |}
                                   (pubSub sv)).2 |})
       else (inl StoreError, sv)) ∧
    (Mutation_addMessage ack "" usr sv).1 ≠ inl ValidationError.
Proof.
  intros (u & -> & Hu)%truthy_Some. exists u. split; [done|].
  destruct ack.
  - rewrite addMessage_acked by done. split; [reflexivity|discriminate].
  - rewrite addMessage_refused by (simpl; by rewrite Hu).
    split; [reflexivity|discriminate].
Qed.

Lemma C3_witness :
  truthy (Some "alice") = true ∧
  (Mutation_addMessage true "" (Some "alice") initial).1 ≠ inl ValidationError.
Proof.
  split; [reflexivity|].
  destruct (C3_addMessage_empty_text true (Some "alice") initial eq_refl)
    as (u & _ & _ & H).
  exact H.
Defined.

(** C3 as stated fails: "alice" adds the empty text to the empty server,
    the call succeeds and the message is in the log. *)
Lemma C3_counterexample :
  truthy (Some "alice") = true ∧
  (Mutation_addMessage true "" (Some "alice") initial).1
  = inr {| id := 1; user := "alice"; text := "" |} ∧
  (Mutation_addMessage true "" (Some "alice") initial).1 ≠ inl ValidationError ∧
  rows (db (Mutation_addMessage true "" (Some "alice") initial).2)
  = [{| id := 1; user := "alice"; text := "" |}].
Proof. repeat split; done. Qed.

Lemma listed_later tr usr sv m :
  truthy usr = true → m ∈ rows (db sv) →
  ∃ l, Query_messages true usr (run tr sv).2 = (inr l, (run tr sv).2) ∧ m ∈ l.
Proof.
  intros Hu Hm. exists (rows (db (run tr sv).2)).
  rewrite Query_messages_truthy by done. split; [done|].
  rewrite run_rows. apply elem_of_app. by left.
Qed.

(** C4. [addMessage] publishes only after the store has acknowledged the
    append. A call that fails, and so one whose append the store refuses
    (StoreError), leaves the whole server as it was: nothing is
    published. A call that succeeds has appended its message to the log
    before handing it to the sessions. Hence whatever a session of a
    reachable state was handed is in the log, and every later
    [listMessages] returns it. *)
Theorem C4_publish_after_append sv ack txt usr :
  reachable sv →
  match (Mutation_addMessage ack txt usr sv).1 with
  | inl e =>
      (Mutation_addMessage ack txt usr sv).2 = sv ∧
      e = (if truthy usr then StoreError else AuthorizationError) ∧
      (truthy usr = true → ack = false)
  | inr m =>
      ack = true ∧
      rows (db (Mutation_addMessage ack txt usr sv).2) = rows (db sv) ++ [m] ∧
      pubSub (Mutation_addMessage ack txt usr sv).2 = (publish m (pubSub sv)).2
  end ∧
  (ack = false → (Mutation_addMessage ack txt usr sv).2 = sv) ∧
  ∀ sid s m tr u,
    sessions (pubSub (Mutation_addMessage ack txt usr sv).2) !! sid = Some s →
    m ∈ stream s → truthy u = true →
    ∃ l, Query_messages true u (run tr (Mutation_addMessage ack txt usr sv).2).2
         = (inr l, (run tr (Mutation_addMessage ack txt usr sv).2).2) ∧
         m ∈ l.
Proof.
  intros Hsv.
  assert (inv (Mutation_addMessage ack txt usr sv).2) as Hinv.
  { apply reachable_inv in Hsv.
    apply (inv_step (AddMessage ack txt usr)) in Hsv. simpl in Hsv.
    by destruct (Mutation_addMessage ack txt usr sv). }
  split; [|split].
  - destruct (truthy usr) eqn:Hu.
    + destruct ack.
      * apply truthy_Some in Hu as (v & -> & Hv).
        rewrite addMessage_acked by done. done.
      * rewrite addMessage_refused by done. done.
    + rewrite addMessage_falsy by done. done.
  - intros ->. destruct (truthy usr) eqn:Hu.
    + by rewrite addMessage_refused.
    + by rewrite addMessage_falsy.
  - intros sid s m tr u Hs Hm Hu. apply listed_later; [done|].
    destruct (inv_suffix _ Hinv _ _ Hs) as [k ->].
    apply elem_of_app. by right.
Qed.

Lemma C4_witness :
  reachable oneSubscriber ∧
  (Mutation_addMessage false "lost" (Some "alice") oneSubscriber).2 = oneSubscriber.
Proof.
  assert (reachable oneSubscriber) as H.
  { apply run_reachable, reach_initial. }
  split; [exact H|].
  destruct (C4_publish_after_append oneSubscriber false "lost" (Some "alice") H)
    as (_ & Hrefused & _).
  apply Hrefused. reflexivity.
Defined.

(** C5. A subscribe attempt without an authenticated principal fails with
    AuthorizationError and registers nothing. Consequently, in every
    history of the server, a message yielded by a session's stream is
    preceded by the subscribe call that opened that session, made by an
    authenticated principal. *)
Theorem C5_subscribe_authorized usr sv tr i sid m :
  (truthy usr = false →
   Subscription_messageAdded usr sv = (inl AuthorizationError, sv)) ∧
  ((run tr initial).1 !! i = Some (Next sid, Pulled (Yield m)) →
   ∃ j u, j < i ∧
          (run tr initial).1 !! j = Some (Subscribe u, Subscribed (inr sid)) ∧
          truthy u = true).
Proof.
  split; [apply subscribe_falsy|].
  intros [[s Hs]|H]%yield_subscribed; [|done].
  simpl in Hs. by rewrite lookup_empty in Hs.
Qed.

Lemma C5_witness :
  (truthy None = false ∧
   Subscription_messageAdded None oneSubscriber
   = (inl AuthorizationError, oneSubscriber)) ∧
  ((run [Subscribe (Some "bob"); AddMessage true "hello" (Some "alice"); Next 0]
        initial).1 !! 2 = Some (Next 0, Pulled (Yield hello)) ∧
   ∃ j u, j < 2 ∧
     (run [Subscribe (Some "bob"); AddMessage true "hello" (Some "alice"); Next 0]
          initial).1 !! j = Some (Subscribe u, Subscribed (inr 0)) ∧
     truthy u = true).
Proof.
  split; (split; [reflexivity|]).
  - apply (C5_subscribe_authorized None oneSubscriber [] 0 0 hello).
    reflexivity.
  - apply (C5_subscribe_authorized None initial
             [Subscribe (Some "bob"); AddMessage true "hello" (Some "alice"); Next 0]
             2 0 hello).
    reflexivity.
Defined.

Lemma subscribe_inv usr sv sid sv1 :
  inv sv → Subscription_messageAdded usr sv = (inr sid, sv1) →
  inv sv1 ∧ db sv1 = db sv.
Proof.
  intros Hsv Hsub.
  apply (inv_step (Subscribe usr)) in Hsv. simpl in Hsv. rewrite Hsub in Hsv.
  split; [done|].
  apply subscribe_inr in Hsub as (u & _ & _ & _ & ->). done.
Qed.

Lemma step_next_yield sid sv s m q :
  sessions (pubSub sv) !! sid = Some s → queue s = m :: q →
  step (Next sid) sv
  = (Pulled (Yield m),
     {| db := db sv;
        pubSub := {| sessions := <[sid := advance s m q]> (sessions (pubSub sv));
                     next_sid := next_sid (pubSub sv) |} |}).
Proof.
  intros Hs Hq. simpl. unfold onBroker, nextMessage. by rewrite Hs, Hq.
Qed.

(** Pulling as often as there are queued messages hands out the queue,
    front first, and creates nothing. *)
Lemma drain sid q sv s :
  sessions (pubSub sv) !! sid = Some s → queue s = q →
  yielded sid (run (replicate (length q) (Next sid)) sv).1 = q ∧
  created (run (replicate (length q) (Next sid)) sv).1 = [].
Proof.
  revert sv s. induction q as [|m q IH]; intros sv s Hs Hq; [done|].
  simpl replicate. rewrite run_cons.
  rewrite (step_next_yield sid sv s m q Hs Hq). simpl.
  destruct (IH {| db := db sv;
                  pubSub := {| sessions := <[sid := advance s m q]>
                                             (sessions (pubSub sv));
                               next_sid := next_sid (pubSub sv) |} |}
               (advance s m q)) as [Hy Hc].
  - simpl. by rewrite lookup_insert_eq.
  - done.
  - unfold yielded, created in *. simpl.
    rewrite decide_True by done. by rewrite Hy, Hc.
Qed.

(** C6. Take a session from the moment it subscribes and any requests
    served afterwards. What its stream yields is a front part of the
    messages created since, in creation order: identifiers increase
    strictly along it, so nothing is yielded twice; and of two messages
    created since, the one with the smaller identifier is yielded before
    the other whenever the other is yielded. While the session is
    registered every message created since is delivered to it: what it
    has yielded followed by its queue is exactly what was created, and
    pulling the queue out yields all of it, so that of two messages
    created since, M1 with the smaller identifier and M2, the stream
    yields M1, then M2, each once. *)
Theorem C6_stream_order sv usr sid sv1 tr :
  reachable sv →
  Subscription_messageAdded usr sv = (inr sid, sv1) →
  yielded sid (run tr sv1).1 `prefix_of` created (run tr sv1).1 ∧
  StronglySorted id_lt (created (run tr sv1).1) ∧
  StronglySorted id_lt (yielded sid (run tr sv1).1) ∧
  NoDup (yielded sid (run tr sv1).1) ∧
  (∀ M1 M2 k,
    M1 ∈ created (run tr sv1).1 → M2 ∈ created (run tr sv1).1 →
    id M1 < id M2 →
    yielded sid (run tr sv1).1 !! k = Some M2 →
    ∃ i, i < k ∧ yielded sid (run tr sv1).1 !! i = Some M1) ∧
  ∀ s, sessions (pubSub (run tr sv1).2) !! sid = Some s →
    yielded sid (run tr sv1).1 ++ queue s = created (run tr sv1).1 ∧
    yielded sid ((run tr sv1).1
                 ++ (run (replicate (length (queue s)) (Next sid)) (run tr sv1).2).1)
    = created (run tr sv1).1 ∧
    created ((run tr sv1).1
             ++ (run (replicate (length (queue s)) (Next sid)) (run tr sv1).2).1)
    = created (run tr sv1).1 ∧
    NoDup (yielded sid ((run tr sv1).1
             ++ (run (replicate (length (queue s)) (Next sid)) (run tr sv1).2).1)) ∧
    ∀ M1 M2,
      M1 ∈ created (run tr sv1).1 → M2 ∈ created (run tr sv1).1 →
      id M1 < id M2 →
      ∃ i k, i < k ∧
        yielded sid ((run tr sv1).1
          ++ (run (replicate (length (queue s)) (Next sid)) (run tr sv1).2).1)
        !! i = Some M1 ∧
        yielded sid ((run tr sv1).1
          ++ (run (replicate (length (queue s)) (Next sid)) (run tr sv1).2).1)
        !! k = Some M2.
Proof.
  intros Hsv Hsub.
  destruct (subscribe_inv _ _ _ _ (reachable_inv _ Hsv) Hsub) as [Hinv _].
  pose proof (tracks_run sid tr [] sv1 (tracks_subscribe _ _ _ _ Hsub))
    as (Hpre & _ & Htr).
  simpl in Hpre, Htr.
  pose proof (created_sorted tr sv1 Hinv) as Hsorted.
  assert (StronglySorted id_lt (yielded sid (run tr sv1).1)) as Hys.
  { destruct Hpre as [rest Hrest]. rewrite Hrest in Hsorted.
    by apply id_lt_prefix in Hsorted. }
  split; [done|]. split; [done|]. split; [done|].
  split; [by apply id_lt_NoDup|]. split.
  - intros M1 M2 k [i Hi]%list_elem_of_lookup_1 _ Hlt Hk.
    exists i.
    assert (created (run tr sv1).1 !! k = Some M2) as Hk'.
    { by eapply prefix_lookup_Some. }
    pose proof (id_lt_lookup _ _ _ _ _ Hsorted Hi Hk' Hlt) as Hik.
    split; [done|].
    destruct Hpre as [rest Hrest]. rewrite Hrest in Hi.
    apply lookup_lt_Some in Hk.
    by rewrite lookup_app_l in Hi by lia.
  - intros s Hs. destruct (Htr _ Hs) as [Hd Hst].
    destruct (drain sid (queue s) _ s Hs eq_refl) as [Hy Hc].
    assert (yielded sid (run tr sv1).1 ++ queue s = created (run tr sv1).1)
      as Hall.
    { by rewrite <-Hd, <-Hst. }
    assert (yielded sid ((run tr sv1).1
              ++ (run (replicate (length (queue s)) (Next sid)) (run tr sv1).2).1)
            = created (run tr sv1).1) as Hdrained.
    { unfold yielded in *. by rewrite omap_app, Hy. }
    split; [done|]. split; [done|]. split.
    { unfold created in *. by rewrite omap_app, Hc, app_nil_r. }
    rewrite Hdrained. split; [by apply id_lt_NoDup|].
    intros M1 M2 [i Hi]%list_elem_of_lookup_1 [k Hk]%list_elem_of_lookup_1 Hlt.
    exists i, k. split; [|done].
    exact (id_lt_lookup _ _ _ _ _ Hsorted Hi Hk Hlt).
Qed.

Lemma C6_witness :
  (reachable initial ∧
   Subscription_messageAdded (Some "bob") initial
   = (inr 0, (step (Subscribe (Some "bob")) initial).2) ∧
   is_Some (sessions (pubSub
     (run [AddMessage true "one" (Some "alice"); Next 0;
           AddMessage true "two" (Some "carol")]
          (step (Subscribe (Some "bob")) initial).2).2) !! 0)) ∧
  yielded 0 (run [AddMessage true "one" (Some "alice"); Next 0;
                  AddMessage true "two" (Some "carol")]
                 (step (Subscribe (Some "bob")) initial).2).1
  `prefix_of`
  created (run [AddMessage true "one" (Some "alice"); Next 0;
                AddMessage true "two" (Some "carol")]
               (step (Subscribe (Some "bob")) initial).2).1 ∧
  ∃ s, yielded 0 (run [AddMessage true "one" (Some "alice"); Next 0;
                       AddMessage true "two" (Some "carol")]
                      (step (Subscribe (Some "bob")) initial).2).1 ++ queue s
       = created (run [AddMessage true "one" (Some "alice"); Next 0;
                       AddMessage true "two" (Some "carol")]
                      (step (Subscribe (Some "bob")) initial).2).1.
Proof.
  assert (is_Some (sessions (pubSub
     (run [AddMessage true "one" (Some "alice"); Next 0;
           AddMessage true "two" (Some "carol")]
          (step (Subscribe (Some "bob")) initial).2).2) !! 0)) as H.
  { vm_compute. eauto. }
  split; [split; [exact reach_initial|split; [reflexivity|exact H]]|].
  destruct (C6_stream_order initial (Some "bob") 0
              (step (Subscribe (Some "bob")) initial).2
              [AddMessage true "one" (Some "alice"); Next 0;
               AddMessage true "two" (Some "carol")]
              reach_initial eq_refl) as (Hpre & _ & _ & _ & _ & Hdel).
  split; [exact Hpre|].
  destruct H as [s Hs]. exists s.
  destruct (Hdel s Hs) as [Hall _]. exact Hall.
Defined.

Example still_registered_gets_all :
  ∃ s, sessions (pubSub (run [AddMessage true "one" (Some "alice"); Next 0;
                              AddMessage true "two" (Some "carol")]
                             (step (Subscribe (Some "bob")) initial).2).2) !! 0
       = Some s ∧
       queue s = [{| id := 2; user := "carol"; text := "two" |}] ∧
       delivered s = [{| id := 1; user := "alice"; text := "one" |}].
Proof. vm_compute. eauto. Qed.

Example two_messages_in_order :
  yielded 0 (run [AddMessage true "one" (Some "alice");
                  AddMessage true "two" (Some "carol"); Next 0; Next 0; Next 0]
                 (step (Subscribe (Some "bob")) initial).2).1
  = [{| id := 1; user := "alice"; text := "one" |};
     {| id := 2; user := "carol"; text := "two" |}].
Proof. vm_compute. reflexivity. Qed.

(** C7. A session that subscribes when a message is already in the log
    never gets that message through its stream, whatever is served
    afterwards: its stream does not yield it and the session never holds
    it. [listMessages] called afterwards by an authenticated principal
    does return it. *)
Theorem C7_no_backfill sv M1 usr sid sv1 tr u :
  reachable sv →
  M1 ∈ rows (db sv) →
  Subscription_messageAdded usr sv = (inr sid, sv1) →
  truthy u = true →
  (M1 ∉ yielded sid (run tr sv1).1) ∧
  (∀ s, sessions (pubSub (run tr sv1).2) !! sid = Some s → M1 ∉ stream s) ∧
  ∃ l, Query_messages true u (run tr sv1).2 = (inr l, (run tr sv1).2) ∧ M1 ∈ l.
Proof.
  intros Hsv HM1 Hsub Hu.
  destruct (subscribe_inv _ _ _ _ (reachable_inv _ Hsv) Hsub) as [Hinv Hdb].
  rewrite <-Hdb in HM1.
  pose proof (tracks_run sid tr [] sv1 (tracks_subscribe _ _ _ _ Hsub))
    as (Hpre & _ & Hs).
  simpl in Hpre, Hs.
  pose proof (created_fresh tr sv1 M1 Hinv HM1) as Hfresh.
  split; [|split].
  - intros Hy. apply Hfresh. destruct Hpre as [rest ->].
    apply elem_of_app. by left.
  - intros s [_ Hst]%Hs. by rewrite Hst.
  - by apply listed_later.
Qed.

Lemma C7_witness :
  (reachable oneSubscriber ∧ hello ∈ rows (db oneSubscriber) ∧
   Subscription_messageAdded (Some "dave") oneSubscriber
   = (inr 1, (step (Subscribe (Some "dave")) oneSubscriber).2) ∧
   truthy (Some "erin") = true) ∧
  hello ∉ yielded 1 (run [AddMessage true "again" (Some "alice"); Next 1; Next 1]
                         (step (Subscribe (Some "dave")) oneSubscriber).2).1.
Proof.
  assert (reachable oneSubscriber) as H.
  { apply run_reachable, reach_initial. }
  assert (hello ∈ rows (db oneSubscriber)) as Hin.
  { vm_compute. apply list_elem_of_here. }
  split; [split; [exact H|split; [exact Hin|split; reflexivity]]|].
  apply (C7_no_backfill oneSubscriber hello (Some "dave") 1
           (step (Subscribe (Some "dave")) oneSubscriber).2
           [AddMessage true "again" (Some "alice"); Next 1; Next 1]
           (Some "erin") H Hin eq_refl eq_refl).
Defined.

(** ** The client-side claims *)

(** C8. [useMessages] returns an array in every render, never [null] or
    [undefined]: the empty array while the query has produced no data
    (and when its [messages] field is null), and the cached list once
    there is one. *)
Theorem C8_useMessages_total queryData l :
  is_Some (useMessages queryData) ∧
  useMessages None = Some [] ∧
  useMessages (Some {| messages := None |}) = Some [] ∧
  useMessages (Some {| messages := Some l |}) = Some l.
Proof.
  repeat split; try reflexivity.
  destruct queryData as [[[ms|]]|]; simpl; eauto.
Qed.

(** ** The normalised cache *)

Lemma message_eta i (a : Message) :
  i = id a → {| id := i; user := user a; text := text a |} = a.
Proof. intros ->. by destruct a. Qed.

Lemma read_held es refs : Forall (held es) (omap (readEntry es) refs).
Proof.
  induction refs as [|[i|] refs IH]; simpl; [constructor| |by constructor].
  destruct (es !! i) as [[u t]|] eqn:Hi; simpl; [|done].
  constructor; [|done]. done.
Qed.

Lemma write_held es l : Forall (held es) l → foldl writeEntry es l = es.
Proof.
  induction 1 as [|[a|] l Ha Hl IH]; simpl; [done| |done].
  simpl in Ha. by rewrite insert_id.
Qed.

Lemma held_coherent es l : Forall (held es) l → coherent l.
Proof.
  rewrite Forall_forall. intros Hl a b Ha Hb Hid.
  pose proof (Hl _ Ha) as Ha'. pose proof (Hl _ Hb) as Hb'. simpl in *.
  rewrite Hid, Hb' in Ha'. destruct a, b; simpl in *. congruence.
Qed.

Lemma read_last es m : readEntry (writeEntry es m) (refOf m) = Some m.
Proof.
  destruct m as [b|]; simpl; [|done].
  rewrite lookup_insert_eq. simpl. by rewrite message_eta.
Qed.

Lemma read_refresh_one es m x :
  held es x → readEntry (writeEntry es m) (refOf x) = Some (refresh m x).
Proof.
  destruct x as [a|]; simpl; [|by destruct m].
  intros Ha. destruct m as [b|]; simpl.
  - rewrite lookup_insert. destruct (decide (id a = id b)) as [Hab|Hab].
    + rewrite decide_True by done. simpl. by rewrite message_eta.
    + rewrite decide_False by done. rewrite Ha. simpl.
      by rewrite message_eta.
  - rewrite Ha. simpl. by rewrite message_eta.
Qed.

Lemma read_refresh es m l :
  Forall (held es) l →
  omap (readEntry (writeEntry es m)) (refOf <$> l) = refresh m <$> l.
Proof.
  induction 1 as [|x l Hx Hl IH]; [done|].
  rewrite !fmap_cons. cbn [omap list_omap].
  rewrite (read_refresh_one es m x Hx). f_equal. exact IH.
Qed.

Lemma readQuery_list c l :
  readQuery c = Some {| messages := Some l |} →
  Forall (held (entities c)) l.
Proof.
  unfold readQuery. destruct (rootMessages c) as [[refs|]|]; try done.
  intros [= <-]. apply read_held.
Qed.

Lemma read_after_append c l m :
  readQuery c = Some {| messages := Some l |} →
  readQuery (writeQuery {| messages := Some (l ++ [m]) |} c)
  = Some {| messages := Some ((refresh m <$> l) ++ [m]) |}.
Proof.
  intros Hl%readQuery_list. unfold readQuery, writeQuery. simpl.
  rewrite foldl_snoc, write_held by done.
  rewrite fmap_app, omap_app, read_refresh by done. simpl.
  by rewrite read_last.
Qed.

Lemma onData_step c l m :
  readQuery c = Some {| messages := Some l |} →
  onData c (eventOf m) = inr (writeQuery {| messages := Some (l ++ [m]) |} c).
Proof.
  intros Hc. unfold onData, updateQuery, appendMessage. simpl.
  by rewrite Hc.
Qed.

Lemma fmap_fixed {A} (f : A → A) (l : list A) :
  (∀ x, x ∈ l → f x = x) → f <$> l = l.
Proof.
  induction l as [|x l IH]; intros Hf; simpl; [done|].
  rewrite Hf by apply list_elem_of_here. f_equal.
  apply IH. intros y Hy. apply Hf. by apply list_elem_of_further.
Qed.

Lemma refresh_coherent m l : coherent (l ++ [m]) → refresh m <$> l = l.
Proof.
  intros Hco. apply fmap_fixed. intros [a|] Ha; destruct m as [b|]; simpl; try done.
  destruct (decide (id a = id b)) as [Hab|]; [|done].
  f_equal. symmetry. apply Hco; [| |done].
  - apply elem_of_app. by left.
  - apply elem_of_app. right. apply list_elem_of_here.
Qed.

Lemma coherent_snoc_elem l m : coherent l → m ∈ l → coherent (l ++ [m]).
Proof.
  intros Hco Hm.
  assert (∀ x, x ∈ l ++ [m] → x ∈ l) as Hin.
  { intros x [?|Hx%list_elem_of_singleton]%elem_of_app; [done|by subst]. }
  intros a b Ha%Hin Hb%Hin. by apply Hco.
Qed.

(** C9. On every subscription event, with the query result in the cache,
    the updater returns the cached list with the event's message added
    at the end, whatever the list holds, and the handler writes that
    list. Read back, the list is one longer and ends with the event's
    message; the entries before it are as they were, except that those
    with the identifier of the event's message now show that message.
    There is no check for an entry already there: a message that was
    in the list is in it once more, so twice. *)
Theorem C9_onData_appends c l m :
  readQuery c = Some {| messages := Some l |} →
  appendMessage m (readQuery c) = inr (Some {| messages := Some (l ++ [m]) |}) ∧
  onData c {| data := Some {| message := m |} |}
  = inr (writeQuery {| messages := Some (l ++ [m]) |} c) ∧
  readQuery (writeQuery {| messages := Some (l ++ [m]) |} c)
  = Some {| messages := Some ((refresh m <$> l) ++ [m]) |} ∧
  length ((refresh m <$> l) ++ [m]) = S (length l) ∧
  (m ∈ l →
   (refresh m <$> l) ++ [m] = l ++ [m] ∧
   length (filter (λ x, x = m) (l ++ [m]))
   = S (length (filter (λ x, x = m) l))).
Proof.
  intros Hc.
  split; [by rewrite Hc|].
  split; [by apply (onData_step c l m)|].
  split; [by apply read_after_append|].
  split; [rewrite length_app, length_fmap; simpl; lia|].
  intros Hm. split.
  - rewrite refresh_coherent; [done|].
    apply coherent_snoc_elem; [|done].
    by eapply held_coherent, readQuery_list.
  - rewrite filter_app, length_app, filter_cons_True by done. simpl. lia.
Qed.

Lemma C9_witness :
  (readQuery (cached [hello]) = Some {| messages := Some [Some hello] |} ∧
   Some hello ∈ [Some hello]) ∧
  readQuery (writeQuery {| messages := Some ([Some hello] ++ [Some hello]) |}
                        (cached [hello]))
  = Some {| messages := Some ((refresh (Some hello) <$> [Some hello])
                              ++ [Some hello]) |}.
Proof.
  split; [split; [reflexivity|apply list_elem_of_here]|].
  apply (C9_onData_appends (cached [hello]) [Some hello] (Some hello)).
  reflexivity.
Defined.

Example duplicate_in_cache :
  match onData (cached [hello]) (eventOf (Some hello)) with
  | inr c => readQuery c
  | inl _ => None
  end
  = Some {| messages := Some [Some hello; Some hello] |}.
Proof. vm_compute. reflexivity. Qed.

Example same_id_other_fields :
  match onData (cached [hello])
               (eventOf (Some {| id := 1; user := "bob"; text := "changed" |})) with
  | inr c => readQuery c
  | inl _ => None
  end
  = Some {| messages :=
              Some [Some {| id := 1; user := "bob"; text := "changed" |};
                    Some {| id := 1; user := "bob"; text := "changed" |}] |}.
Proof. vm_compute. reflexivity. Qed.

(** C10. The handler goes through only when a result of the messages
    query is in the cache: with none, every event ends in a TypeError,
    raised by reading [oldData.messages] of [null]. When the handler goes
    through, the cache held a list and the list with the event's message
    at the end was written; when it throws, the cache had no query
    result, or a null list, or the event had no data. *)
Theorem C10_onData_needs_cache cache result newMessage :
  onData emptyCache result = inl TypeError ∧
  appendMessage newMessage None = inl TypeError ∧
  match readQuery cache with
  | None => onData cache result = inl TypeError
  | Some _ => True
  end ∧
  match onData cache result with
  | inr c =>
      ∃ l m, readQuery cache = Some {| messages := Some l |} ∧
             data result = Some {| message := m |} ∧
             c = writeQuery {| messages := Some (l ++ [m]) |} cache ∧
             readQuery c = Some {| messages := Some ((refresh m <$> l) ++ [m]) |}
  | inl e =>
      e = TypeError ∧
      (readQuery cache = None ∨
       readQuery cache = Some {| messages := None |} ∨
       data result = None)
  end.
Proof.
  split; [by destruct result as [[[m]|]]|]. split; [done|]. split.
  - destruct (readQuery cache) eqn:Hc; [done|].
    unfold onData, updateQuery, appendMessage. rewrite Hc.
    by destruct result as [[[m]|]].
  - unfold onData, updateQuery, appendMessage.
    destruct result as [[[m]|]]; simpl; [|eauto].
    destruct (readQuery cache) as [[[l|]]|] eqn:Hc; simpl; eauto.
    exists l, m. split; [done|]. split; [done|]. split; [done|].
    by apply read_after_append.
Qed.

(** ** Further properties of the server *)

Lemma step_authored rq sv : authored (rq, (step rq sv).1).
Proof.
  pose proof (step_effect rq sv) as E.
  destruct (step rq sv) as [r sv']; simpl in *.
  destruct E as [| |txt u sv Hu m| |u sv Hu| | |sid0 sv s0 m q Hs0 Hq|sid0 sv];
    simpl; try done.
  split; [done|]. intros ->. by rewrite String.eqb_refl in Hu.
Qed.

Lemma run_authored tr sv : Forall authored (run tr sv).1.
Proof.
  revert sv. induction tr as [|rq tr IH]; intros sv; [constructor|].
  rewrite run_cons. simpl. constructor; [apply step_authored|apply IH].
Qed.

Lemma created_authored h m :
  Forall authored h → m ∈ created h → user m ≠ "".
Proof.
  intros Hh (e & He & Hc)%list_elem_of_omap.
  rewrite Forall_forall in Hh. specialize (Hh _ He).
  destruct e as [rq [| [e'|m'] | | |]]; simpl in *; try done.
  injection Hc as ->. by destruct Hh.
Qed.

(** X1. Serving [messages] queries, any number of them, from any
    principal and whatever the store answers, leaves the server as it
    was: no row is added and no session's queue changes. *)
Theorem X1_reads_change_nothing tr sv :
  forallb isRead tr = true → (run tr sv).2 = sv.
Proof.
  revert sv. induction tr as [|rq tr IH]; intros sv; [done|].
  simpl forallb. intros [Hrq Htr]%andb_prop.
  rewrite run_cons. simpl.
  destruct rq as [ok u| | | |]; try done.
  assert ((step (Messages ok u) sv).2 = sv) as ->; [|by apply IH].
  simpl. pose proof (Query_messages_state ok u sv) as H.
  by destruct (Query_messages ok u sv).
Qed.

Lemma X1_witness :
  forallb isRead [Messages true (Some "bob"); Messages false None;
                  Messages true (Some "")] = true ∧
  (run [Messages true (Some "bob"); Messages false None; Messages true (Some "")]
       oneSubscriber).2 = oneSubscriber.
Proof.
  split; [reflexivity|].
  apply (X1_reads_change_nothing
           [Messages true (Some "bob"); Messages false None; Messages true (Some "")]
           oneSubscriber).
  reflexivity.
Defined.

(** X2. Every message that [addMessage] returns carries the caller's own
    principal as [user], never an empty one, and the text as it was
    sent; hence every row of the log of a server run from the empty one
    has a non-empty [user]. *)
Theorem X2_author_is_caller tr sv :
  Forall authored (run tr sv).1 ∧
  Forall (λ m, user m ≠ "") (rows (db (run tr initial).2)).
Proof.
  split; [apply run_authored|].
  rewrite run_rows. simpl. apply Forall_forall. intros m Hm.
  eapply created_authored; [apply run_authored|done].
Qed.

(** X3. The log only grows at its end: what [messages] returns to an
    authenticated caller is, after any further requests, the same list
    followed by the messages created in between. Nothing is removed,
    changed or reordered. *)
Theorem X3_log_append_only tr sv u :
  truthy u = true →
  Query_messages true u sv = (inr (rows (db sv)), sv) ∧
  Query_messages true u (run tr sv).2
  = (inr (rows (db sv) ++ created (run tr sv).1), (run tr sv).2) ∧
  rows (db sv) `prefix_of` rows (db (run tr sv).2).
Proof.
  intros Hu. rewrite !Query_messages_truthy by done.
  rewrite run_rows. split; [done|]. split; [done|].
  by apply prefix_app_r.
Qed.

Lemma X3_witness :
  truthy (Some "carol") = true ∧
  rows (db oneSubscriber)
  `prefix_of`
  rows (db (run [AddMessage true "more" (Some "bob"); Close 0] oneSubscriber).2).
Proof.
  split; [reflexivity|].
  apply (X3_log_append_only [AddMessage true "more" (Some "bob"); Close 0]
           oneSubscriber (Some "carol")).
  reflexivity.
Defined.

(** X4. Nothing is lost on the way to a subscriber: while a session is
    registered, what its stream has yielded followed by what is still
    queued for it is exactly the sequence of messages created since it
    subscribed. *)
Theorem X4_stream_complete sv usr sid sv1 tr s :
  Subscription_messageAdded usr sv = (inr sid, sv1) →
  sessions (pubSub (run tr sv1).2) !! sid = Some s →
  yielded sid (run tr sv1).1 ++ queue s = created (run tr sv1).1 ∧
  delivered s = yielded sid (run tr sv1).1.
Proof.
  intros Hsub Hs.
  pose proof (tracks_run sid tr [] sv1 (tracks_subscribe _ _ _ _ Hsub))
    as (_ & _ & Ht).
  simpl in Ht. destruct (Ht _ Hs) as [Hd Hst].
  split; [|done]. by rewrite <-Hd, <-Hst.
Qed.

Lemma X4_witness :
  (Subscription_messageAdded (Some "bob") initial
   = (inr 0, (step (Subscribe (Some "bob")) initial).2) ∧
   is_Some (sessions (pubSub
     (run [AddMessage true "one" (Some "alice"); Next 0;
           AddMessage true "two" (Some "bob")]
          (step (Subscribe (Some "bob")) initial).2).2) !! 0)) ∧
  ∃ s, yielded 0 (run [AddMessage true "one" (Some "alice"); Next 0;
                       AddMessage true "two" (Some "bob")]
                      (step (Subscribe (Some "bob")) initial).2).1 ++ queue s
       = created (run [AddMessage true "one" (Some "alice"); Next 0;
                       AddMessage true "two" (Some "bob")]
                      (step (Subscribe (Some "bob")) initial).2).1.
Proof.
  assert (is_Some (sessions (pubSub
     (run [AddMessage true "one" (Some "alice"); Next 0;
           AddMessage true "two" (Some "bob")]
          (step (Subscribe (Some "bob")) initial).2).2) !! 0)) as H.
  { vm_compute. eauto. }
  split; [split; [reflexivity|exact H]|].
  destruct H as [s Hs]. exists s.
  apply (X4_stream_complete initial (Some "bob") 0
           (step (Subscribe (Some "bob")) initial).2
           [AddMessage true "one" (Some "alice"); Next 0;
            AddMessage true "two" (Some "bob")] s eq_refl Hs).
Defined.

Lemma laterIsTail_step rq sv :
  inv sv → laterIsTail sv → laterIsTail (step rq sv).2.
Proof.
  intros [_ _ Hsids _ _] Hord.
  pose proof (step_effect rq sv) as E.
  destruct (step rq sv) as [r sv']; simpl in *.
  destruct E as [| |txt u sv Hu m| |u sv Hu| | |sid0 sv s0 m q Hs0 Hq|sid0 sv];
    try done; intros a b sa sb Hab; simpl.
  - intros (sa0 & <- & Ha)%lookup_fmap_Some (sb0 & <- & Hb)%lookup_fmap_Some.
    rewrite !stream_enqueue. apply suffix_app. eauto.
  - intros [[Ha <-]|[Hna Ha]]%lookup_insert_Some
           [[Hb <-]|[Hnb Hb]]%lookup_insert_Some.
    + apply suffix_nil.
    + apply Hsids in Hb. lia.
    + apply suffix_nil.
    + eauto.
  - intros Ha Hb.
    assert (∃ sa0, sessions (pubSub sv) !! a = Some sa0 ∧ stream sa = stream sa0)
      as (sa0 & Ha0 & ->).
    { apply lookup_insert_Some in Ha as [[<- <-]|[_ Ha]]; [|by eauto].
      exists s0. split; [done|]. by apply stream_advance. }
    assert (∃ sb0, sessions (pubSub sv) !! b = Some sb0 ∧ stream sb = stream sb0)
      as (sb0 & Hb0 & ->).
    { apply lookup_insert_Some in Hb as [[<- <-]|[_ Hb]]; [|by eauto].
      exists s0. split; [done|]. by apply stream_advance. }
    eauto.
  - intros [_ Ha]%lookup_delete_Some [_ Hb]%lookup_delete_Some. eauto.
Qed.

Lemma reachable_laterIsTail sv : reachable sv → laterIsTail sv.
Proof.
  induction 1 as [|rq sv Hsv IH].
  - intros a b sa sb _ Ha. simpl in Ha. by rewrite lookup_empty in Ha.
  - apply laterIsTail_step; [by apply reachable_inv|done].
Qed.

(** X5. Subscribers agree: of two sessions registered in a reachable
    state, the one that subscribed later has been handed exactly a tail
    end of what the earlier one has been handed — the same messages in
    the same order from its own start on. *)
Theorem X5_subscribers_agree sv a b sa sb :
  reachable sv → a < b →
  sessions (pubSub sv) !! a = Some sa →
  sessions (pubSub sv) !! b = Some sb →
  stream sb `suffix_of` stream sa.
Proof. intros Hsv. by apply reachable_laterIsTail. Qed.

Lemma X5_witness :
  (reachable twoSubscribers ∧ 0 < 1 ∧
   is_Some (sessions (pubSub twoSubscribers) !! 0) ∧
   is_Some (sessions (pubSub twoSubscribers) !! 1)) ∧
  ∃ sa sb, sessions (pubSub twoSubscribers) !! 0 = Some sa ∧
           sessions (pubSub twoSubscribers) !! 1 = Some sb ∧
           stream sb `suffix_of` stream sa.
Proof.
  assert (reachable twoSubscribers) as H.
  { apply run_reachable, reach_initial. }
  assert (is_Some (sessions (pubSub twoSubscribers) !! 0)) as H0.
  { vm_compute. eauto. }
  assert (is_Some (sessions (pubSub twoSubscribers) !! 1)) as H1.
  { vm_compute. eauto. }
  split; [split; [exact H|split; [lia|split; [exact H0|exact H1]]]|].
  destruct H0 as [sa Ha], H1 as [sb Hb]. exists sa, sb.
  split; [exact Ha|]. split; [exact Hb|].
  apply (X5_subscribers_agree twoSubscribers 0 1 sa sb H); [lia|exact Ha|exact Hb].
Defined.

(** X6. A successful [addMessage] reaches every registered session,
    the caller's own included: each one gets the new message once, at
    the back of its queue, and keeps everything else; no session is
    added or dropped. *)
Theorem X6_fan_out sv ack txt usr m sid :
  (Mutation_addMessage ack txt usr sv).1 = inr m →
  match sessions (pubSub sv) !! sid with
  | Some s =>
      ∃ s', sessions (pubSub (Mutation_addMessage ack txt usr sv).2) !! sid = Some s' ∧
            queue s' = queue s ++ [m] ∧
            delivered s' = delivered s ∧
            owner s' = owner s
  | None =>
      sessions (pubSub (Mutation_addMessage ack txt usr sv).2) !! sid = None
  end.
Proof.
  destruct (truthy usr) eqn:Hu.
  - destruct ack.
    + apply truthy_Some in Hu as (v & -> & Hv).
      rewrite addMessage_acked by done. simpl. intros [= <-].
      rewrite lookup_fmap.
      destruct (sessions (pubSub sv) !! sid) as [s|]; simpl; eauto.
    + by rewrite addMessage_refused.
  - by rewrite addMessage_falsy.
Qed.

Lemma X6_witness :
  (Mutation_addMessage true "mine" (Some "bob") oneSubscriber).1
  = inr {| id := 2; user := "bob"; text := "mine" |} ∧
  ∃ s', sessions (pubSub (Mutation_addMessage true "mine" (Some "bob")
                            oneSubscriber).2) !! 0 = Some s' ∧
        queue s' = [hello; {| id := 2; user := "bob"; text := "mine" |}].
Proof.
  split; [reflexivity|].
  pose proof (X6_fan_out oneSubscriber true "mine" (Some "bob")
                {| id := 2; user := "bob"; text := "mine" |} 0 eq_refl) as H.
  destruct (sessions (pubSub oneSubscriber) !! 0) as [s|] eqn:Hs.
  - destruct H as (s' & Hs' & Hq & _). exists s'. split; [exact Hs'|].
    rewrite Hq. vm_compute in Hs. injection Hs as <-. reflexivity.
  - vm_compute in Hs. discriminate.
Defined.

(** ** Further properties of the client hooks *)

Lemma handle_read c l ev :
  readQuery c = Some {| messages := Some l |} →
  handle c ev
  = match carried ev with
    | Some m => writeQuery {| messages := Some (l ++ [m]) |} c
    | None => c
    end.
Proof.
  intros Hc. unfold handle, onData, updateQuery, appendMessage.
  destruct ev as [[[m]|]]; simpl; [|done]. by rewrite Hc.
Qed.

Lemma feed_read c l evs :
  readQuery c = Some {| messages := Some l |} →
  readQuery (feed c evs)
  = Some {| messages := Some (absorb l (omap carried evs)) |}.
Proof.
  unfold feed, absorb. revert c l.
  induction evs as [|ev evs IH]; intros c l Hc; [done|].
  cbn [foldl omap list_omap]. rewrite (handle_read c l ev Hc).
  destruct (carried ev) as [m|]; simpl.
  - apply IH. by apply read_after_append.
  - by apply IH.
Qed.

Lemma refOf_refresh m x : refOf (refresh m x) = refOf x.
Proof.
  destruct m as [b|], x as [a|]; simpl; try done.
  destruct (decide (id a = id b)) as [Hab|]; simpl; congruence.
Qed.

Lemma refOf_absorb l ms : refOf <$> absorb l ms = refOf <$> (l ++ ms).
Proof.
  unfold absorb. revert l. induction ms as [|m ms IH]; intros l; simpl.
  - by rewrite app_nil_r.
  - rewrite IH, !fmap_app, <-list_fmap_compose, <-app_assoc. simpl.
    f_equal. apply list_fmap_ext. intros i x _. apply refOf_refresh.
Qed.

Lemma coherent_app_l l k : coherent (l ++ k) → coherent l.
Proof.
  intros Hco a b Ha Hb. apply Hco; apply elem_of_app; by left.
Qed.

Lemma absorb_coherent l ms : coherent (l ++ ms) → absorb l ms = l ++ ms.
Proof.
  unfold absorb. revert l. induction ms as [|m ms IH]; intros l Hco; simpl.
  - by rewrite app_nil_r.
  - rewrite cons_middle, app_assoc in Hco.
    rewrite refresh_coherent by (by eapply coherent_app_l).
    rewrite IH by done. by rewrite <-app_assoc.
Qed.

(** X7. With the query result in the cache, the events of a subscription
    are added to the cached list in arrival order, each at the end: the
    list read back has the entries of the old list followed by one entry
    per event that carries data, under the same identifiers and in the
    same places; an entry shows the last message handled with its
    identifier. When no two different messages share an identifier, the
    list is the old one followed by the messages of the events. An event
    without data throws and is skipped. *)
Theorem X7_feed_appends_in_order c l evs :
  readQuery c = Some {| messages := Some l |} →
  readQuery (feed c evs)
  = Some {| messages := Some (absorb l (omap carried evs)) |} ∧
  useMessages (readQuery (feed c evs)) = Some (absorb l (omap carried evs)) ∧
  refOf <$> absorb l (omap carried evs) = refOf <$> (l ++ omap carried evs) ∧
  length (absorb l (omap carried evs)) = length l + length (omap carried evs) ∧
  (coherent (l ++ omap carried evs) →
   absorb l (omap carried evs) = l ++ omap carried evs).
Proof.
  intros Hc. rewrite (feed_read c l evs Hc).
  split; [done|]. split; [done|]. split; [apply refOf_absorb|]. split.
  - rewrite <-(length_fmap refOf), refOf_absorb, length_fmap. apply length_app.
  - apply absorb_coherent.
Qed.

Lemma X7_witness :
  readQuery (cached [hello]) = Some {| messages := Some [Some hello] |} ∧
  readQuery (feed (cached [hello])
                  [eventOf (Some {| id := 2; user := "bob"; text := "hi" |});
                   {| data := None |};
                   eventOf (Some {| id := 1; user := "bob"; text := "changed" |})])
  = Some {| messages :=
              Some [Some {| id := 1; user := "bob"; text := "changed" |};
                    Some {| id := 2; user := "bob"; text := "hi" |};
                    Some {| id := 1; user := "bob"; text := "changed" |}] |}.
Proof.
  split; [reflexivity|].
  destruct (X7_feed_appends_in_order (cached [hello]) [Some hello]
              [eventOf (Some {| id := 2; user := "bob"; text := "hi" |});
               {| data := None |};
               eventOf (Some {| id := 1; user := "bob"; text := "changed" |})]
              eq_refl) as [Hread _].
  exact Hread.
Defined.

Lemma handle_stuck c ev :
  readQuery c = None ∨ readQuery c = Some {| messages := None |} →
  handle c ev = c.
Proof.
  unfold handle, onData, updateQuery, appendMessage.
  intros [Hc|Hc]; rewrite Hc; by destruct ev as [[[m]|]].
Qed.

Lemma feed_stuck c evs :
  readQuery c = None ∨ readQuery c = Some {| messages := None |} →
  feed c evs = c.
Proof.
  intros Hc. unfold feed. induction evs as [|ev evs IH]; simpl; [done|].
  by rewrite handle_stuck.
Qed.

(** X8. Events never fill the cache on their own: while no query result
    is cached, or the cached [messages] is null, every event throws and
    the cache stays as it is, however many events arrive; the hook keeps
    returning the empty array. *)
Theorem X8_events_before_query_are_lost evs cache :
  feed emptyCache evs = emptyCache ∧
  feed (writeQuery {| messages := None |} emptyCache) evs
  = writeQuery {| messages := None |} emptyCache ∧
  useMessages (readQuery (feed emptyCache evs)) = Some [] ∧
  useMessages (readQuery (feed (writeQuery {| messages := None |} emptyCache) evs))
  = Some [] ∧
  match readQuery cache with
  | None | Some {| messages := None |} =>
      feed cache evs = cache ∧
      useMessages (readQuery (feed cache evs)) = Some []
  | Some {| messages := Some _ |} => True
  end.
Proof.
  rewrite !feed_stuck by (by (left + right)).
  split; [done|]. split; [done|]. split; [done|]. split; [done|].
  destruct (readQuery cache) as [[[l|]]|] eqn:Hc; [done| |].
  - rewrite feed_stuck by (by right). by rewrite Hc.
  - rewrite feed_stuck by (by left). by rewrite Hc.
Qed.

(** X9. When the handler goes through, the next render shows what the
    last one showed, with the event's message added at the end and with
    the entries that share its identifier now showing that message;
    where no other message shares it, nothing else changed. *)
Theorem X9_render_after_event cache ev c :
  onData cache ev = inr c →
  ∃ l m, useMessages (readQuery cache) = Some l ∧
         data ev = Some {| message := m |} ∧
         useMessages (readQuery c) = Some ((refresh m <$> l) ++ [m]) ∧
         (coherent (l ++ [m]) → useMessages (readQuery c) = Some (l ++ [m])).
Proof.
  unfold onData, updateQuery, appendMessage.
  destruct ev as [[[m]|]]; simpl; [|done].
  destruct (readQuery cache) as [[[l|]]|] eqn:Hc; simpl; try done.
  intros [= <-]. exists l, m.
  rewrite (read_after_append cache l m Hc). simpl.
  split; [done|]. split; [done|]. split; [done|].
  intros Hco. by rewrite refresh_coherent.
Qed.

Lemma X9_witness :
  onData (cached [hello]) (eventOf None)
  = inr (writeQuery {| messages := Some [Some hello; None] |} (cached [hello])) ∧
  ∃ l m, useMessages (readQuery (cached [hello])) = Some l ∧
         data (eventOf None) = Some {| message := m |} ∧
         useMessages (readQuery (writeQuery {| messages := Some [Some hello; None] |}
                                            (cached [hello])))
         = Some ((refresh m <$> l) ++ [m]) ∧
         (coherent (l ++ [m]) →
          useMessages (readQuery (writeQuery {| messages := Some [Some hello; None] |}
                                             (cached [hello])))
          = Some (l ++ [m])).
Proof.
  split; [reflexivity|].
  apply (X9_render_after_event (cached [hello]) (eventOf None)
           (writeQuery {| messages := Some [Some hello; None] |} (cached [hello]))).
  reflexivity.
Defined.

(** ** Client and server together *)

Lemma writeEntry_keeps es l i :
  is_Some (es !! i) → is_Some (foldl writeEntry es l !! i).
Proof.
  revert es. induction l as [|[a|] l IH]; intros es Hi; simpl; [done| |by apply IH].
  apply IH. rewrite lookup_insert_is_Some'. by right.
Qed.

Lemma writeEntry_has es l a :
  Some a ∈ l → is_Some (foldl writeEntry es l !! id a).
Proof.
  revert es. induction l as [|x l IH]; intros es; [by intros ?%elem_of_nil|].
  intros [<-|Ha]%elem_of_cons; simpl.
  - apply writeEntry_keeps. rewrite lookup_insert_eq. eauto.
  - by apply IH.
Qed.

Lemma read_refs es (l : list (option Message)) :
  (∀ a, Some a ∈ l → is_Some (es !! id a)) →
  refOf <$> omap (readEntry es) (refOf <$> l) = refOf <$> l.
Proof.
  induction l as [|x l IH]; intros Hl; [done|].
  rewrite !fmap_cons. cbn [omap list_omap].
  assert (∃ y, readEntry es (refOf x) = Some y ∧ refOf y = refOf x)
    as (y & -> & Hy).
  { destruct x as [a|]; simpl; [|eauto].
    destruct (Hl a) as [f Hf]; [apply list_elem_of_here|].
    rewrite Hf. simpl. eauto. }
  rewrite fmap_cons, Hy. f_equal. apply IH.
  intros a Ha. apply Hl. by apply list_elem_of_further.
Qed.

Lemma handle_cached l m :
  handle (cached l) (eventOf (Some m)) = cached (l ++ [m]).
Proof.
  unfold cached at 1. unfold writeQuery at 1. simpl.
  set (es := foldl writeEntry ∅ (Some <$> l)).
  set (c := {| entities := es;
               rootMessages := Some (Some (refOf <$> (Some <$> l))) |}).
  rewrite (handle_read c (omap (readEntry es) (refOf <$> (Some <$> l)))
             (eventOf (Some m)) eq_refl).
  simpl. unfold cached, writeQuery. simpl.
  rewrite foldl_snoc, (write_held es) by apply read_held.
  rewrite fmap_app.
  rewrite read_refs by (intros a Ha; by apply writeEntry_has).
  rewrite !fmap_app.
  change (Some <$> [m]) with [Some m].
  by rewrite foldl_snoc.
Qed.

Lemma feed_cached l ms : feed (cached l) (eventsOf ms) = cached (l ++ ms).
Proof.
  unfold feed, eventsOf. revert l.
  induction ms as [|m ms IH]; intros l; [by rewrite app_nil_r|].
  rewrite fmap_cons. cbn [foldl]. rewrite handle_cached, IH.
  by rewrite <-app_assoc.
Qed.

Lemma written_held es l : coherent l → Forall (held (foldl writeEntry es l)) l.
Proof.
  induction l as [|x l IH] using rev_ind; intros Hco; [constructor|].
  rewrite foldl_snoc. apply Forall_app. split.
  - specialize (IH (coherent_app_l _ _ Hco)).
    destruct x as [b|]; [|done].
    rewrite Forall_forall in IH. apply Forall_forall. intros [a|] Ha; [|done].
    simpl. destruct (decide (id a = id b)) as [Hab|Hab].
    + assert (a = b) as ->.
      { apply Hco; [apply elem_of_app; by left| |done].
        apply elem_of_app. right. apply list_elem_of_here. }
      by rewrite lookup_insert_eq.
    + rewrite lookup_insert_ne by done. by apply (IH (Some a)).
  - constructor; [|constructor]. destruct x as [b|]; [|done].
    simpl. by rewrite lookup_insert_eq.
Qed.

Lemma read_cached l :
  coherent (Some <$> l) →
  readQuery (cached l) = Some {| messages := Some (Some <$> l) |}.
Proof.
  intros Hco. unfold cached, writeQuery, readQuery. simpl.
  pose proof (read_refresh (foldl writeEntry ∅ (Some <$> l)) None (Some <$> l)
                (written_held ∅ _ Hco)) as Hr.
  simpl in Hr. rewrite Hr. do 3 f_equal.
  apply fmap_fixed. by intros [a|] _.
Qed.

Lemma id_lt_inj (l : list Message) a b :
  StronglySorted id_lt l → a ∈ l → b ∈ l → id a = id b → a = b.
Proof.
  induction 1 as [|x l Hs IH Hx]; [by intros ?%elem_of_nil|].
  rewrite Forall_forall in Hx. unfold id_lt in Hx.
  intros [->|Ha]%elem_of_cons [->|Hb]%elem_of_cons Hid; [done| | |by apply IH].
  - specialize (Hx _ Hb). lia.
  - specialize (Hx _ Ha). lia.
Qed.

Lemma sorted_coherent (l log : list Message) :
  StronglySorted id_lt log → (∀ x, x ∈ l → x ∈ log) →
  coherent (Some <$> l).
Proof.
  intros Hs Hsub a b Ha Hb.
  apply list_elem_of_fmap in Ha as (a' & [= ->] & Ha).
  apply list_elem_of_fmap in Hb as (b' & [= ->] & Hb).
  apply (id_lt_inj log); auto.
Qed.

Lemma occurrences_absent (m : Message) l : m ∉ l → occurrences m l = 0.
Proof.
  unfold occurrences. induction l as [|x l IH]; [done|].
  intros [Hx Hl]%not_elem_of_cons.
  rewrite filter_cons_False by done. by apply IH.
Qed.

Lemma occurrences_NoDup (m : Message) l : NoDup l → m ∈ l → occurrences m l = 1.
Proof.
  induction 1 as [|x l Hx Hl IH]; [by intros ?%elem_of_nil|].
  intros [->|Hm]%elem_of_cons.
  - pose proof (occurrences_absent x l Hx) as H0. unfold occurrences in *.
    rewrite filter_cons_True by done. simpl. by rewrite H0.
  - specialize (IH Hm). unfold occurrences in *.
    rewrite filter_cons_False; [done|]. intros ->. done.
Qed.

Lemma occurrences_app m l k : occurrences m (l ++ k) = occurrences m l + occurrences m k.
Proof. unfold occurrences. by rewrite filter_app, length_app. Qed.

(** X10. A client that gets its query answered in the state in which its
    session was registered sees the log faithfully: after handling the
    events its stream yields, the cached list is the query result
    followed by the yields, a front part of the server's log without
    duplicates; once the session's queue is empty it is the whole log.
    The hook returns that list. *)
Theorem X10_query_then_events sv usr sid sv1 u tr :
  reachable sv →
  Subscription_messageAdded usr sv = (inr sid, sv1) →
  truthy u = true →
  Query_messages true u sv1 = (inr (rows (db sv)), sv1) ∧
  feed (cached (rows (db sv))) (eventsOf (yielded sid (run tr sv1).1))
  = cached (rows (db sv) ++ yielded sid (run tr sv1).1) ∧
  useMessages (readQuery (feed (cached (rows (db sv)))
                               (eventsOf (yielded sid (run tr sv1).1))))
  = Some (Some <$> (rows (db sv) ++ yielded sid (run tr sv1).1)) ∧
  rows (db sv) ++ yielded sid (run tr sv1).1 `prefix_of` rows (db (run tr sv1).2) ∧
  NoDup (rows (db sv) ++ yielded sid (run tr sv1).1) ∧
  ∀ s, sessions (pubSub (run tr sv1).2) !! sid = Some s → queue s = [] →
       rows (db sv) ++ yielded sid (run tr sv1).1 = rows (db (run tr sv1).2).
Proof.
  intros Hsv Hsub Hu.
  destruct (subscribe_inv _ _ _ _ (reachable_inv _ Hsv) Hsub) as [Hinv Hdb].
  pose proof (tracks_run sid tr [] sv1 (tracks_subscribe _ _ _ _ Hsub))
    as (Hpre & _ & Hs).
  simpl in Hpre, Hs.
  assert (rows (db sv) ++ yielded sid (run tr sv1).1
          `prefix_of` rows (db (run tr sv1).2)) as Hp.
  { rewrite run_rows, Hdb. by apply prefix_app. }
  split; [by rewrite Query_messages_truthy, Hdb|].
  split; [apply feed_cached|]. split.
  { rewrite feed_cached, read_cached; [done|].
    apply (sorted_coherent _ (rows (db (run tr sv1).2)));
      [apply (inv_sorted _ (run_inv tr sv1 Hinv))|].
    intros x Hx. destruct Hp as [rest ->]. apply elem_of_app. by left. }
  split; [done|]. split.
  - destruct Hp as [rest Hrest].
    pose proof (inv_sorted _ (run_inv tr sv1 Hinv)) as Hsorted.
    apply id_lt_NoDup in Hsorted. rewrite Hrest in Hsorted.
    by apply NoDup_app in Hsorted as [? _].
  - intros s [Hd Hst]%Hs Hq. rewrite run_rows, Hdb. f_equal.
    rewrite <-Hd, <-Hst. unfold stream. by rewrite Hq, app_nil_r.
Qed.

Lemma X10_witness :
  (reachable oneSubscriber ∧
   Subscription_messageAdded (Some "dave") oneSubscriber
   = (inr 1, (step (Subscribe (Some "dave")) oneSubscriber).2) ∧
   truthy (Some "dave") = true) ∧
  feed (cached (rows (db oneSubscriber)))
       (eventsOf (yielded 1 (run [AddMessage true "again" (Some "alice"); Next 1]
                                 (step (Subscribe (Some "dave")) oneSubscriber).2).1))
  = cached (rows (db oneSubscriber)
            ++ yielded 1 (run [AddMessage true "again" (Some "alice"); Next 1]
                              (step (Subscribe (Some "dave")) oneSubscriber).2).1).
Proof.
  assert (reachable oneSubscriber) as H.
  { apply run_reachable, reach_initial. }
  split; [split; [exact H|split; reflexivity]|].
  apply (X10_query_then_events oneSubscriber (Some "dave") 1
           (step (Subscribe (Some "dave")) oneSubscriber).2 (Some "dave")
           [AddMessage true "again" (Some "alice"); Next 1] H eq_refl eq_refl).
Defined.

(** X11. A message created after the session was registered but before
    the query was answered is in the query result and in the stream: a
    client that handles the stream's events on top of that query result
    ends up with the message exactly twice in its list, the list the
    hook returns. *)
Theorem X11_created_in_between_shows_twice sv usr sid sv1 u tr1 tr2 m :
  reachable sv →
  Subscription_messageAdded usr sv = (inr sid, sv1) →
  truthy u = true →
  m ∈ created (run tr1 sv1).1 →
  m ∈ yielded sid ((run tr1 sv1).1 ++ (run tr2 (run tr1 sv1).2).1) →
  Query_messages true u (run tr1 sv1).2
  = (inr (rows (db sv) ++ created (run tr1 sv1).1), (run tr1 sv1).2) ∧
  feed (cached (rows (db sv) ++ created (run tr1 sv1).1))
       (eventsOf (yielded sid ((run tr1 sv1).1 ++ (run tr2 (run tr1 sv1).2).1)))
  = cached ((rows (db sv) ++ created (run tr1 sv1).1)
            ++ yielded sid ((run tr1 sv1).1 ++ (run tr2 (run tr1 sv1).2).1)) ∧
  useMessages
    (readQuery
       (feed (cached (rows (db sv) ++ created (run tr1 sv1).1))
             (eventsOf (yielded sid ((run tr1 sv1).1
                                     ++ (run tr2 (run tr1 sv1).2).1)))))
  = Some (Some <$> ((rows (db sv) ++ created (run tr1 sv1).1)
                    ++ yielded sid ((run tr1 sv1).1
                                    ++ (run tr2 (run tr1 sv1).2).1))) ∧
  occurrences m ((rows (db sv) ++ created (run tr1 sv1).1)
                 ++ yielded sid ((run tr1 sv1).1 ++ (run tr2 (run tr1 sv1).2).1))
  = 2.
Proof.
  intros Hsv Hsub Hu Hc Hy.
  destruct (subscribe_inv _ _ _ _ (reachable_inv _ Hsv) Hsub) as [Hinv Hdb].
  pose proof (tracks_run sid tr1 [] sv1 (tracks_subscribe _ _ _ _ Hsub)) as Ht1.
  simpl in Ht1.
  pose proof (tracks_run sid tr2 _ _ Ht1) as (Hpre & _ & _).
  pose proof (inv_sorted _ (run_inv tr1 sv1 Hinv)) as Hs2.
  pose proof (inv_sorted _ (run_inv tr2 _ (run_inv tr1 sv1 Hinv))) as Hs3.
  rewrite run_rows in Hs2. rewrite !run_rows, Hdb in Hs3. rewrite Hdb in Hs2.
  split; [by rewrite Query_messages_truthy, run_rows, Hdb|].
  split; [apply feed_cached|]. split.
  { rewrite feed_cached, read_cached; [done|].
    apply (sorted_coherent _ _ Hs3).
    destruct Hpre as [rest Hrest]. unfold created in Hrest.
    rewrite omap_app in Hrest. fold (created (run tr1 sv1).1) in Hrest.
    fold (created (run tr2 (run tr1 sv1).2).1) in Hrest.
    intros x [Hx|Hx]%elem_of_app.
    - apply elem_of_app. by left.
    - assert (x ∈ created (run tr1 sv1).1 ++ created (run tr2 (run tr1 sv1).2).1)
        as [H1|H2]%elem_of_app.
      { rewrite Hrest. apply elem_of_app. by left. }
      + apply elem_of_app. left. apply elem_of_app. by right.
      + apply elem_of_app. by right. }
  rewrite occurrences_app.
  rewrite (occurrences_NoDup m (rows (db sv) ++ created (run tr1 sv1).1)).
  - rewrite (occurrences_NoDup m (yielded sid _)); [done| |done].
    destruct Hpre as [rest Hrest].
    rewrite <-app_assoc in Hs3. apply StronglySorted_app_1_r in Hs3.
    unfold created in Hrest. rewrite omap_app in Hrest.
    unfold created in Hs3. rewrite Hrest in Hs3.
    by apply id_lt_prefix, id_lt_NoDup in Hs3.
  - by apply id_lt_NoDup.
  - apply elem_of_app. by right.
Qed.

Lemma X11_witness :
  (reachable initial ∧
   Subscription_messageAdded (Some "bob") initial
   = (inr 0, (step (Subscribe (Some "bob")) initial).2) ∧
   truthy (Some "bob") = true ∧
   hello ∈ created (run [AddMessage true "hello" (Some "alice")]
                        (step (Subscribe (Some "bob")) initial).2).1 ∧
   hello ∈ yielded 0
     ((run [AddMessage true "hello" (Some "alice")]
           (step (Subscribe (Some "bob")) initial).2).1
      ++ (run [Next 0]
              (run [AddMessage true "hello" (Some "alice")]
                   (step (Subscribe (Some "bob")) initial).2).2).1)) ∧
  feed (cached [hello]) (eventsOf [hello]) = cached [hello; hello].
Proof.
  assert (hello ∈ created (run [AddMessage true "hello" (Some "alice")]
                        (step (Subscribe (Some "bob")) initial).2).1) as Hc.
  { vm_compute. apply list_elem_of_here. }
  assert (hello ∈ yielded 0
     ((run [AddMessage true "hello" (Some "alice")]
           (step (Subscribe (Some "bob")) initial).2).1
      ++ (run [Next 0]
              (run [AddMessage true "hello" (Some "alice")]
                   (step (Subscribe (Some "bob")) initial).2).2).1)) as Hy.
  { vm_compute. apply list_elem_of_here. }
  split; [split; [exact reach_initial|split; [reflexivity|split;
          [reflexivity|split; [exact Hc|exact Hy]]]]|].
  destruct (X11_created_in_between_shows_twice initial (Some "bob") 0
              (step (Subscribe (Some "bob")) initial).2 (Some "bob")
              [AddMessage true "hello" (Some "alice")] [Next 0] hello
              reach_initial eq_refl eq_refl Hc Hy) as (_ & Hfeed & _).
  exact Hfeed.
Defined.

(** X12. Subscribing disturbs nobody: in a reachable state a successful
    subscribe registers its session under a handle no session has, with
    nothing queued, and leaves the log and every other session as they
    were. *)
Theorem X12_subscribe_is_fresh sv usr sid sv1 :
  reachable sv →
  Subscription_messageAdded usr sv = (inr sid, sv1) →
  sessions (pubSub sv) !! sid = None ∧
  (∃ u, usr = Some u ∧ sessions (pubSub sv1) !! sid = Some (newSession u)) ∧
  (∀ sid', sid' ≠ sid →
           sessions (pubSub sv1) !! sid' = sessions (pubSub sv) !! sid') ∧
  db sv1 = db sv.
Proof.
  intros Hsv Hsub. apply reachable_inv in Hsv as [_ _ Hsids _ _].
  apply subscribe_inr in Hsub as (u & -> & Hu & -> & ->). simpl.
  split; [|split; [|split; [|done]]].
  - destruct (sessions (pubSub sv) !! next_sid (pubSub sv)) as [s|] eqn:Hs;
      [|done].
    apply Hsids in Hs. lia.
  - exists u. by rewrite lookup_insert_eq.
  - intros sid' Hne. by rewrite lookup_insert_ne.
Qed.

Lemma X12_witness :
  (reachable oneSubscriber ∧
   Subscription_messageAdded (Some "dave") oneSubscriber
   = (inr 1, (step (Subscribe (Some "dave")) oneSubscriber).2)) ∧
  sessions (pubSub oneSubscriber) !! 1 = None.
Proof.
  assert (reachable oneSubscriber) as H.
  { apply run_reachable, reach_initial. }
  split; [split; [exact H|reflexivity]|].
  apply (X12_subscribe_is_fresh oneSubscriber (Some "dave") 1
           (step (Subscribe (Some "dave")) oneSubscriber).2 H eq_refl).
Defined.

(** ** The login handler *)

Lemma strictEqString_true s v : strictEqString s v = true ↔ v = JsString s.
Proof.
  destruct v as [| | | |t|]; simpl; try (split; [discriminate|congruence]).
  rewrite String.eqb_eq. split; congruence.
Qed.

(** X13. [handleLogin] answers with a token exactly when the request has
    a body, [getUser] finds a row for its [username], its [password] is
    the string stored in that row, and signing succeeds; the token is
    the one signed for the [username] of the request. *)
Theorem X13_login_token getUser sign body token :
  handleLogin getUser sign body = inr (Json token) ↔
  ∃ b row, body = Some b ∧
           getUser (username b) = inr (Some row) ∧
           password b = JsString (row_password row) ∧
           sign (username b) = inr token.
Proof.
  unfold handleLogin. split.
  - destruct body as [b|]; [|done].
    destruct (getUser (username b)) as [e|[row|]] eqn:Hg; [done| |done].
    destruct (strictEqString (row_password row) (password b)) eqn:Hp; [|done].
    simpl. destruct (sign (username b)) as [e|t] eqn:Hs; [done|].
    intros [= ->]. exists b, row. by apply strictEqString_true in Hp.
  - intros (b & row & -> & -> & Hp & ->).
    apply strictEqString_true in Hp. by rewrite Hp.
Qed.

Lemma X13_witness :
  handleLogin seedUsers demoSign
    (Some {| username := JsString "alice"; password := JsString "alice123" |})
  = inr (Json "jwt:alice").
Proof.
  apply (X13_login_token seedUsers demoSign).
  exists {| username := JsString "alice"; password := JsString "alice123" |},
         {| row_username := "alice"; row_password := "alice123" |}.
  repeat split.
Defined.

(** X14. A login that [getUser] answers and that is not let in gets the
    bare status 401, the same for an unknown user as for a known one
    with another password: a missing password, or one that is not a
    string, is never let in. Nothing is signed. *)
Theorem X14_login_refused getUser sign b o :
  getUser (username b) = inr o →
  (∀ row, o = Some row → password b ≠ JsString (row_password row)) →
  handleLogin getUser sign (Some b) = inr (SendStatus 401).
Proof.
  intros Hg Hp. unfold handleLogin. rewrite Hg.
  destruct o as [row|]; [|done].
  destruct (strictEqString (row_password row) (password b)) eqn:Heq; [|done].
  apply strictEqString_true in Heq. by destruct (Hp row eq_refl).
Qed.

Lemma X14_witness :
  (seedUsers (JsString "alice")
   = inr (Some {| row_username := "alice"; row_password := "alice123" |}) ∧
   JsUndefined ≠ JsString "alice123") ∧
  handleLogin seedUsers demoSign
    (Some {| username := JsString "alice"; password := JsUndefined |})
  = inr (SendStatus 401).
Proof.
  split; [split; [reflexivity|discriminate]|].
  apply (X14_login_refused seedUsers demoSign
           {| username := JsString "alice"; password := JsUndefined |}
           (Some {| row_username := "alice"; row_password := "alice123" |})).
  - reflexivity.
  - intros row [= <-]. discriminate.
Defined.

(** ** The mutation hook *)

(** X15. [addMessage] of [useAddMessage] hands the text to [mutate] as it
    is and gives back the [message] of the result, [null] included. It
    rejects when [mutate] rejects, and throws a TypeError when the
    result has no [data]. *)
Theorem X15_useAddMessage_outcome mutate txt :
  match useAddMessage mutate txt with
  | inr m => ∃ result, mutate txt = Some result ∧ data result = Some {| message := m |}
  | inl MutateRejected => mutate txt = None
  | inl DestructureTypeError =>
      ∃ result, mutate txt = Some result ∧ data result = None
  end.
Proof.
  unfold useAddMessage.
  destruct (mutate txt) as [[[[m]|]]|] eqn:Hm; simpl; eauto.
Qed.
